(** * PyGeneralGeekDownloader: the segmented download engine

    A shallow embedding of [calc.py], [getsize.py], [fetch.py] and the
    segment-count logic of [app.py], with the properties of the engine's
    specification stated over it.

    Python integers are unbounded: they are [Z].  A Python exception is a
    value of [exn] returned on the right of [res].  A two-element list
    [[start, end]] is a pair.  What [json.loads] reads is a value of
    [Json.json]. *)

From stdpp Require Import gmap strings list fin_maps pretty.
From Stdlib Require Import ZArith Lia Ascii QArith Qcanon.
From Stdlib Require Import Strings.Byte.

#[local] Set Warnings "-clear-no-such-hyp,-register-all".

Local Open Scope Z_scope.

(** ** Python results *)

Inductive exn :=
  | ValueError
  | ZeroDivisionError
  | IndexError
  | TypeError
  | OSError
  | TimeoutError
  | ClientError
  | DownloadError
  | FileInfoError
  | AttributeError
  | OverflowError.

Inductive res (A : Type) :=
  | Ok (a : A)
  | Raise (e : exn).
Arguments Ok {A} a.
Arguments Raise {A} e.

#[global] Instance res_ret : MRet res := λ A a, Ok a.
#[global] Instance res_bind : MBind res := λ A B k r,
  match r with
  | Ok a => k a
  | Raise e => Raise e
  end.

(** ** Python built-ins used by the sources *)

Module Py.

(** [len(range(lo, hi, step))] as CPython computes it. *)
Definition range_len (lo hi step : Z) : nat :=
  if 0 <? step then
    if lo <? hi then Z.to_nat ((hi - lo - 1) `div` step + 1) else 0%nat
  else if step <? 0 then
    if hi <? lo then Z.to_nat ((lo - hi - 1) `div` (- step) + 1) else 0%nat
  else 0%nat.

(** [list(range(lo, hi, step))]; a zero step raises [ValueError]. *)
Definition range (lo hi step : Z) : res (list Z) :=
  if step =? 0 then Raise ValueError
  else Ok ((λ i : nat, lo + Z.of_nat i * step) <$> seq 0 (range_len lo hi step)).

(** [a // b]: floor division, [ZeroDivisionError] on a zero divisor. *)
Definition floordiv (a b : Z) : res Z :=
  if b =? 0 then Raise ZeroDivisionError else Ok (a `div` b).

End Py.

(** ** calc.py *)

Module CalcSegments.

(** A range [[start, end]], both ends included. *)
Abbreviation segment := (Z * Z)%type (only parsing).

(** [segments[-1][-1] = v] on a non-empty list. *)
Fixpoint set_last_end (segments : list segment) (v : Z) : list segment :=
  match segments with
  | [] => []
  | [(s, _)] => [(s, v)]
  | x :: rest => x :: set_last_end rest v
  end.

Definition get_segment (max_size segments_amount : Z) : res (list segment) :=
  if max_size <=? 0 then Raise ValueError
  else
    let actual_segments := Z.min segments_amount max_size in
    let segments_amount :=
      if actual_segments <? segments_amount then actual_segments
      else segments_amount in
    standard_size ← Py.floordiv max_size segments_amount;
    l1_segments ← Py.range 0 max_size standard_size;
    let segments := (λ x, (x, x + standard_size - 1)) <$> l1_segments in
    match segments with
    | [] => Raise IndexError
    | _ => Ok (set_last_end segments (max_size - 1))
    end.

(** The ranges [segs], read in list order, tile [[lo, hi)]: each starts
    where the previous one stopped, none is empty, the last stops at
    [hi - 1]. *)
Fixpoint tiles (lo : Z) (segs : list segment) (hi : Z) : Prop :=
  match segs with
  | [] => lo = hi
  | (s, e) :: rest => s = lo ∧ s ≤ e ∧ tiles (e + 1) rest hi
  end.

End CalcSegments.

(** ** Python string operations used by getsize.py *)

Module PyStr.
Local Open Scope char_scope.

Definition is_space (c : ascii) : bool :=
  let n := N_of_ascii c in
  ((9 <=? n) && (n <=? 13) || (n =? 32))%N.

Definition digit_val (c : ascii) : option Z :=
  let n := N_of_ascii c in
  if ((48 <=? n) && (n <=? 57))%N then Some (Z.of_N n - 48) else None.

Definition lower_ascii (c : ascii) : ascii :=
  let n := N_of_ascii c in
  if ((65 <=? n) && (n <=? 90))%N then ascii_of_N (n + 32) else c.

Fixpoint lower (s : string) : string :=
  match s with
  | EmptyString => EmptyString
  | String c r => String (lower_ascii c) (lower r)
  end.

(** [s.split(sep)[-1]] for a one-character separator: what follows the
    last [sep], or all of [s] when it has none.  [acc] is the piece
    after the most recent separator seen. *)
Fixpoint after_last (sep : ascii) (s acc : string) : string :=
  match s with
  | EmptyString => acc
  | String c r =>
      if Ascii.eqb c sep then after_last sep r r else after_last sep r acc
  end.

Definition split_last (sep : ascii) (s : string) : string :=
  after_last sep s s.

Fixpoint lstrip (l : list ascii) : list ascii :=
  match l with
  | c :: r => if is_space c then lstrip r else l
  | [] => []
  end.

Definition strip (l : list ascii) : list ascii :=
  rev (lstrip (rev (lstrip l))).

(** Decimal digits with single underscores between digits, as [int]
    accepts them; [prev] says that the previous character was a digit. *)
Fixpoint digits (acc : Z) (prev : bool) (l : list ascii) : option Z :=
  match l with
  | [] => if prev then Some acc else None
  | c :: r =>
      match digit_val c with
      | Some d => digits (10 * acc + d) true r
      | None => if Ascii.eqb c "_" && prev then digits acc false r else None
      end
  end.

(** [int(s)] on an ASCII string: surrounding white space (tab to
    carriage return, and space) is dropped, one sign is allowed,
    anything else raises [ValueError].  The limit that recent
    interpreters put on the number of digits is left out. *)
Definition int (s : string) : res Z :=
  let body := strip (String.list_ascii_of_string s) in
  let parsed :=
    match body with
    | "-" :: r => Z.opp <$> digits 0 false r
    | "+" :: r => digits 0 false r
    | _ => digits 0 false body
    end in
  match parsed with
  | Some n => Ok n
  | None => Raise ValueError
  end.

(** White space for [str.strip()], on ASCII text: tab to carriage
    return, the four separators 28 to 31, and space. *)
Definition is_strip_space (c : ascii) : bool :=
  let n := N_of_ascii c in
  ((9 <=? n) && (n <=? 13) || (28 <=? n) && (n <=? 32))%N.

Fixpoint lstrip_by (drop_it : ascii → bool) (l : list ascii) : list ascii :=
  match l with
  | c :: r => if drop_it c then lstrip_by drop_it r else l
  | [] => []
  end.

(** [s.strip()] and [s.strip(chars)]: the characters that [drop_it]
    selects are removed from both ends. *)
Definition strip_by (drop_it : ascii → bool) (l : list ascii) : list ascii :=
  rev (lstrip_by drop_it (rev (lstrip_by drop_it l))).

(** [s.split(sep)] for a one-character separator: the pieces between
    the separators, empty pieces included; at least one piece. *)
Fixpoint split (sep : ascii) (l : list ascii) : list (list ascii) :=
  match l with
  | [] => [[]]
  | c :: r =>
      if Ascii.eqb c sep then [] :: split sep r
      else
        match split sep r with
        | piece :: pieces => (c :: piece) :: pieces
        | [] => [[c]]
        end
  end.

(** [s.startswith(prefix)] *)
Fixpoint startswith (prefix l : list ascii) : bool :=
  match prefix, l with
  | [], _ => true
  | p :: prefix', c :: l' => Ascii.eqb p c && startswith prefix' l'
  | _ :: _, [] => false
  end.

End PyStr.

(** ** getsize.py *)

Module FileInfoManager.
Local Open Scope string_scope.

(** Response headers in arrival order.  aiohttp looks names up without
    regard to case and returns the first value of a repeated name. *)
Definition headers : Type := list (string * string).

Fixpoint get (h : headers) (name : string) : option string :=
  match h with
  | [] => None
  | (k, v) :: r =>
      if String.eqb (PyStr.lower k) (PyStr.lower name) then Some v
      else get r name
  end.

(** [name in headers] *)
Definition contains (h : headers) (name : string) : bool :=
  match get h name with Some _ => true | None => false end.

(** [_extract_file_size]: [None] is Python's [None].  The inner [try]
    blocks fall through on [ValueError]; the outer one turns the
    [ValueError] of a malformed Content-Length into [None]. *)
Definition _extract_file_size (h : headers) : option Z :=
  let content_length :=
    match get h "Content-Length" with
    | Some v =>
        match PyStr.int v with
        | Ok n => Some n
        | Raise _ => None
        end
    | None => None
    end in
  match get h "Content-Range" with
  | Some v =>
      match PyStr.int (PyStr.split_last "/" v) with
      | Ok n => Some n
      | Raise _ =>
          match PyStr.int (PyStr.split_last "-" v) with
          | Ok n => Some n
          | Raise _ => content_length
          end
      end
  | None => content_length
  end.

Record response := { status : Z; resp_headers : headers }.

(** What a request comes to: a response, a timeout, or a client error. *)
Inductive outcome :=
  | Responded (r : response)
  | TimedOut
  | Failed.

(** The dictionary [get_file_info_async] returns.  The file name is left
    out: no property below reads it. *)
Record file_info := {
  size : option Z;
  content_type : string;
  supports_range : bool
}.

(** [get_file_info_async]: [head] is the answer to the HEAD request,
    [range_get] the answer to the [Range: bytes=0-1] GET that is sent
    only when HEAD gave no size.  Every exception leaves as
    [FileInfoError]. *)
Definition get_file_info_async (head range_get : outcome) : res file_info :=
  match head with
  | TimedOut | Failed => Raise FileInfoError
  | Responded r =>
      if (400 <=? status r)%Z then Raise FileInfoError
      else
        file_size ←
          match _extract_file_size (resp_headers r) with
          | Some n => Ok (Some n)
          | None =>
              match range_get with
              | Responded r2 => Ok (_extract_file_size (resp_headers r2))
              | TimedOut | Failed => Raise FileInfoError
              end
          end;
        Ok {| size := file_size;
              content_type :=
                default "application/octet-stream"
                        (get (resp_headers r) "Content-Type");
              supports_range :=
                contains (resp_headers r) "Accept-Ranges"
                || contains (resp_headers r) "Content-Range" |}
  end.

(** The rule of the specification for range support, in its words:
    Accept-Ranges present and not "none", or Content-Range present. *)
Definition spec_supports_range (h : headers) : bool :=
  match get h "Accept-Ranges" with
  | Some v => negb (String.eqb v "none")
  | None => false
  end
  || contains h "Content-Range".

(** The order of the specification for the size, in its words:
    Content-Length first, then Content-Range. *)
Definition spec_extract_file_size (h : headers) : option Z :=
  match get h "Content-Length" with
  | Some v =>
      match PyStr.int v with
      | Ok n => Some n
      | Raise _ => None
      end
  | None =>
      match get h "Content-Range" with
      | Some v =>
          match PyStr.int (PyStr.split_last "/" v) with
          | Ok n => Some n
          | Raise _ =>
              match PyStr.int (PyStr.split_last "-" v) with
              | Ok n => Some n
              | Raise _ => None
              end
          end
      | None => None
      end
  end.

(** The two quote characters that [strip] removes around a file name. *)
Definition is_quote (c : ascii) : bool :=
  Ascii.eqb c "034" || Ascii.eqb c "'".

(** One piece of Content-Disposition: the file name it gives, if it is a
    [filename=] piece with a name that is not empty. *)
Definition filename_of_part (part : list ascii) : option (list ascii) :=
  let part := PyStr.strip_by PyStr.is_strip_space part in
  if PyStr.startswith (String.list_ascii_of_string "filename=") part then
    match PyStr.strip_by is_quote (drop 9 part) with
    | [] => None
    | filename => Some filename
    end
  else None.

(** The loop over the pieces: the first one that gives a name wins. *)
Fixpoint first_filename (parts : list (list ascii)) : option (list ascii) :=
  match parts with
  | [] => None
  | part :: rest =>
      match filename_of_part part with
      | Some filename => Some filename
      | None => first_filename rest
      end
  end.

(** [_extract_filename]: [url_path] is what [urlparse(uri).path] gave,
    or the exception it raised. *)
Definition _extract_filename (url_path : res string) (h : headers) : string :=
  let from_header :=
    match get h "Content-Disposition" with
    | Some content_disp =>
        first_filename (PyStr.split ";" (String.list_ascii_of_string content_disp))
    | None => None
    end in
  match from_header with
  | Some filename => String.string_of_list_ascii filename
  | None =>
      match url_path with
      | Ok path =>
          match PyStr.split_last "/" path with
          | EmptyString => "downloaded_file"
          | filename => filename
          end
      | Raise _ => "downloaded_file"
      end
  end.

End FileInfoManager.

(** ** app.py: how many segments the downloader asks for *)

Module Downloader.
Import FileInfoManager.

(** [segments or config["segments_amount"]], then one segment when the
    probe found no range support. *)
Definition segments_count
    (info : file_info) (segments : option Z) (config_segments_amount : Z) : Z :=
  let count :=
    match segments with
    | Some n => if (n =? 0)%Z then config_segments_amount else n
    | None => config_segments_amount
    end in
  if negb (supports_range info) then 1 else count.

(** [get_segment(file_size, segments_count)]; comparing a missing size
    with [0] raises [TypeError]. *)
Definition plan
    (info : file_info) (segments : option Z) (config_segments_amount : Z)
    : res (list CalcSegments.segment) :=
  match size info with
  | None => Raise TypeError
  | Some file_size =>
      CalcSegments.get_segment file_size
        (segments_count info segments config_segments_amount)
  end.

End Downloader.

(** ** fetch.py: the segment fetcher *)

Module DownloadSegment.

(** What one HTTP attempt comes to.  The body is read whole
    ([response.read()]) before anything is written. *)
Inductive http_result :=
  | Timeout
  | NetworkError
  | Response (status : Z) (segment_data : list byte).

(** [file.seek(pos); file.write(data)] on a file opened ['r+b']: the
    bytes under the data are replaced, a file that is too short grows,
    and a gap between its end and [pos] is filled with zero bytes.
    Writing nothing leaves the file as it is. *)
Definition write_at (f : list byte) (pos : nat) (data : list byte) : list byte :=
  match data with
  | [] => f
  | _ =>
      take pos f ++ replicate (pos - length f) x00 ++ data
        ++ drop (pos + length data) f
  end.

(** The start of the request, moved by the resume offset when that
    offset lies strictly inside the segment. *)
Definition request_start (byte_range : CalcSegments.segment) (resume_offset : Z) : Z :=
  let '(start_byte, end_byte) := byte_range in
  if (0 <? resume_offset) && (resume_offset <? end_byte - start_byte + 1)
  then start_byte + resume_offset
  else start_byte.

(** The body of the [try] of one attempt: the new contents of the file,
    or the exception that the [except] clauses log.  [file] is [None]
    when the output file does not exist. *)
Definition try_attempt
    (file : option (list byte)) (start_byte : Z) (a : http_result) : res (list byte) :=
  match a with
  | Timeout => Raise TimeoutError
  | NetworkError => Raise ClientError
  | Response status segment_data =>
      if negb (bool_decide (status ∈ [200; 206])) then Raise DownloadError
      else
        match file with
        | None => Raise OSError
        | Some f =>
            if start_byte <? 0 then Raise OSError
            else Ok (write_at f (Z.to_nat start_byte) segment_data)
        end
  end.

(** [for attempt in range(self.retry_times)], from attempt number
    [attempt] with [remaining] attempts left. *)
Fixpoint attempts
    (remaining attempt : nat) (file : option (list byte)) (start_byte : Z)
    (server : nat → http_result) : option (list byte) * res bool :=
  match remaining with
  | O => (file, Raise DownloadError)
  | S remaining' =>
      match try_attempt file start_byte (server attempt) with
      | Ok f' => (Some f', Ok true)
      | Raise _ => attempts remaining' (S attempt) file start_byte server
      end
  end.

(** [download_segment_async]: the output file after the call and the
    value returned ([True]) or the [DownloadError] raised. *)
Definition download_segment_async
    (retry_times : nat) (file : option (list byte))
    (byte_range : CalcSegments.segment) (server : nat → http_result)
    (resume_offset : Z) : option (list byte) * res bool :=
  attempts retry_times 0 file (request_start byte_range resume_offset) server.

(** [f'] differs from [f] only at offsets in [[lo, hi]]. *)
Definition changes_within (f f' : list byte) (lo hi : Z) : Prop :=
  ∀ k : nat, f' !! k ≠ f !! k → lo ≤ Z.of_nat k ≤ hi.

(** Whether an answer passes the status test of [download_segment_async]. *)
Definition accepted (a : http_result) : bool :=
  match a with
  | Response status _ => bool_decide (status ∈ [200; 206])
  | _ => false
  end.

(** [fetch]: the synchronous wrapper.  It passes no resume offset and
    turns every exception into [False]. *)
Definition fetch
    (retry_times : nat) (file : option (list byte))
    (byte_range : CalcSegments.segment) (server : nat → http_result)
    : option (list byte) * bool :=
  match download_segment_async retry_times file byte_range server 0 with
  | (file', Ok result) => (file', result)
  | (file', Raise _) => (file', false)
  end.

End DownloadSegment.

(** ** JSON values *)

Module Json.

(** A Python float, held by its exact value; [1e999] is read as
    infinity. *)
Inductive pyfloat :=
  | Finite (q : Qc)
  | Inf (negative : bool)
  | NaN.

(** What [json.load] and [json.loads] give: [None], a [bool], an [int],
    a [float], a [str], a [list] or a [dict] with string keys.  A string
    is held by its characters. *)
Inductive json :=
  | JNull
  | JBool (b : bool)
  | JInt (z : Z)
  | JFloat (f : pyfloat)
  | JStr (s : string)
  | JArr (items : list json)
  | JObj (members : gmap string json).

(** A member of a Python set, held by its value: numbers that [==]
    holds equal, as [True], [1] and [1.0], are one member.  Every [NaN]
    of a loaded document is the same object, so it is one member too. *)
Inductive hashable :=
  | HNone
  | HNum (q : Qc)
  | HInf (negative : bool)
  | HNan
  | HStr (s : string).

#[global] Instance hashable_eq_dec : EqDecision hashable.
Proof. solve_decision. Defined.

#[global] Instance hashable_countable : Countable hashable.
Proof.
  refine (inj_countable'
    (λ k, match k with
          | HNone => inl ()
          | HNum q => inr (inl q)
          | HInf negative => inr (inr (inl negative))
          | HNan => inr (inr (inr (inl ())))
          | HStr s => inr (inr (inr (inr s)))
          end)
    (λ x, match x with
          | inl _ => HNone
          | inr (inl q) => HNum q
          | inr (inr (inl negative)) => HInf negative
          | inr (inr (inr (inl _))) => HNan
          | inr (inr (inr (inr s))) => HStr s
          end) _).
  by intros [].
Defined.

Definition Z2Qc (z : Z) : Qc := Q2Qc (inject_Z z).

(** The member that an [int] is. *)
Definition int_key (z : Z) : hashable := HNum (Z2Qc z).

(** [hash(v)] with what it identifies: lists and dictionaries are
    unhashable. *)
Definition hash_key (v : json) : res hashable :=
  match v with
  | JNull => Ok HNone
  | JBool b => Ok (int_key (Z.b2z b))
  | JInt z => Ok (int_key z)
  | JFloat (Finite q) => Ok (HNum q)
  | JFloat (Inf negative) => Ok (HInf negative)
  | JFloat NaN => Ok HNan
  | JStr s => Ok (HStr s)
  | JArr _ | JObj _ => Raise TypeError
  end.

(** A JSON value for a member: [json.dumps] writes the object that
    the set holds, and this value is equal to it as [==] has it, a whole
    number being given as an [int]. *)
Definition of_key (k : hashable) : json :=
  match k with
  | HNone => JNull
  | HNum q => if (Qden q =? 1)%positive then JInt (Qnum q) else JFloat (Finite q)
  | HInf negative => JFloat (Inf negative)
  | HNan => JFloat NaN
  | HStr s => JStr s
  end.

(** [v == z] for an [int] [z]. *)
Definition eq_int (v : json) (z : Z) : bool :=
  match hash_key v with
  | Ok k => bool_decide (k = int_key z)
  | Raise _ => false
  end.

Fixpoint hash_keys (items : list json) : res (list hashable) :=
  match items with
  | [] => Ok []
  | v :: rest =>
      k ← hash_key v;
      ks ← hash_keys rest;
      Ok (k :: ks)
  end.

(** [set(v)]: the members of a list, the characters of a string, the
    keys of a dictionary; [TypeError] on an unhashable member and on
    what cannot be iterated. *)
Definition py_set (v : json) : res (gset hashable) :=
  match v with
  | JArr items =>
      ks ← hash_keys items;
      Ok (list_to_set ks)
  | JStr s =>
      Ok (list_to_set ((λ c, HStr (String c EmptyString))
                         <$> String.list_ascii_of_string s))
  | JObj members => Ok (list_to_set (HStr <$> elements (dom members)))
  | JNull | JBool _ | JInt _ | JFloat _ => Raise TypeError
  end.

(** [int(v)]: a float is cut towards zero. *)
Definition py_int (v : json) : res Z :=
  match v with
  | JBool b => Ok (Z.b2z b)
  | JInt z => Ok z
  | JFloat (Finite q) => Ok (Z.quot (Qnum q) (Z.pos (Qden q)))
  | JFloat (Inf _) => Raise OverflowError
  | JFloat NaN => Raise ValueError
  | JStr s => PyStr.int s
  | JNull | JArr _ | JObj _ => Raise TypeError
  end.

(** [v.get(key, 0)]: only a dictionary has [get]. *)
Definition py_get (v : json) (key : string) : res json :=
  match v with
  | JObj members => Ok (default (JInt 0) (members !! key))
  | _ => Raise AttributeError
  end.

End Json.

(** ** fetch.py: the coordinator *)

Module DownloadManager.
Import DownloadSegment Json.
Local Open Scope string_scope.
Local Open Scope Z_scope.

(** The two files of one download; [None] is a file that is not there.
    The state file is held as what opening, reading and parsing it
    gives: a JSON value, or the exception raised on the way. *)
Record fs := {
  output_file : option (list byte);
  state_file : option (res json)
}.

(** The set and the dictionary that the coordinator and its callbacks
    share.  [segment_progress] is whatever the state file held under
    that key; the keys the coordinator looks up are [str(i)]. *)
Record dl_state := {
  completed_segments : gset hashable;
  segment_progress : json
}.

Definition fresh : dl_state :=
  {| completed_segments := ∅; segment_progress := JObj ∅ |}.

(** The member of the completed set that segment [i] is. *)
Definition segment_key (i : nat) : hashable := int_key (Z.of_nat i).

(** The entries of the progress dictionary; a value that is not a
    dictionary has none. *)
Definition entries (progress : json) : gmap string json :=
  match progress with
  | JObj members => members
  | _ => ∅
  end.

(** What the operating system lets the coordinator do.  A deletion that
    is refused is refused again when it is tried again. *)
Record io := {
  mkdir_ok : bool;
  open_ok : bool;
  sparse_ok : bool;
  truncate_ok : bool;
  unlink_output_ok : bool;
  unlink_state_ok : bool
}.

(** [if file_path.exists(): file_path.unlink(missing_ok=True)]. *)
Definition unlink_output (o : io) (d : fs) : fs * res unit :=
  match output_file d with
  | None => (d, Ok ())
  | Some _ =>
      if unlink_output_ok o
      then ({| output_file := None; state_file := state_file d |}, Ok ())
      else (d, Raise OSError)
  end.

(** [if state_file.exists(): state_file.unlink(missing_ok=True)]. *)
Definition unlink_state (o : io) (d : fs) : fs * res unit :=
  match state_file d with
  | None => (d, Ok ())
  | Some _ =>
      if unlink_state_ok o
      then ({| output_file := output_file d; state_file := None |}, Ok ())
      else (d, Raise OSError)
  end.

(** Lines 175-178 and 181-184: the output file first, then the state
    file. *)
Definition unlink_both (o : io) (d : fs) : fs * res unit :=
  match unlink_output o d with
  | (d1, Ok _) => unlink_state o d1
  | (d1, Raise x) => (d1, Raise x)
  end.

(** [state_data.get('uri') == uri]. *)
Definition uri_matches (members : gmap string json) (uri : string) : bool :=
  match members !! "uri" with
  | Some (JStr s) => String.eqb s uri
  | _ => false
  end.

(** [state_data.get('total_size') == total_size]. *)
Definition size_matches (members : gmap string json) (total_size : Z) : bool :=
  match members !! "total_size" with
  | Some v => eq_int v total_size
  | None => false
  end.

(** Lines 163-169: what the [try] makes of the state file before it
    deletes anything.  [Ok (Some st)] is a state to resume from,
    [Ok None] a state for another download, [Raise] an exception on the
    way: the file cannot be read, is not JSON, is not a dictionary, or
    its completed segments cannot be made a set. *)
Definition load_state
    (uri : string) (total_size : Z) (content : res json) : res (option dl_state) :=
  state_data ← content;
  members ← match state_data with
            | JObj members => Ok members
            | _ => Raise AttributeError
            end;
  if uri_matches members uri && size_matches members total_size then
    completed ← py_set (default (JArr []) (members !! "completed_segments"));
    Ok (Some {| completed_segments := completed;
                segment_progress :=
                  default (JObj ∅) (members !! "segment_progress") |})
  else Ok None.

(** Lines 180-184: the handler of the [try]; what it raises leaves the
    coordinator. *)
Definition start_fresh (o : io) (d : fs) : fs * res dl_state :=
  match unlink_both o d with
  | (d1, Ok _) => (d1, Ok fresh)
  | (d1, Raise x) => (d1, Raise x)
  end.

(** Lines 159-184: the resume check. *)
Definition check_resume
    (o : io) (resume : bool) (uri : string) (total_size : Z) (d : fs)
    : fs * res dl_state :=
  match output_file d, state_file d with
  | Some _, Some content =>
      if resume then
        match load_state uri total_size content with
        | Ok (Some st) => (d, Ok st)
        | Ok None =>
            match unlink_both o d with
            | (d1, Ok _) => (d1, Ok fresh)
            | (d1, Raise _) => start_fresh o d1
            end
        | Raise _ => start_fresh o d
        end
      else (d, Ok fresh)
  | _, _ => (d, Ok fresh)
  end.

Definition zeros (n : Z) : list byte := replicate (Z.to_nat n) x00.

(** Lines 186-213: the output file is created only when it is not
    there; a failure that the fall-back cannot repair leaves as
    [DownloadError]. *)
Definition create_file (o : io) (total_size : Z) (d : fs) : fs * res unit :=
  if negb (mkdir_ok o) then (d, Raise DownloadError)
  else
    match output_file d with
    | Some _ => (d, Ok ())
    | None =>
        if negb (open_ok o) then (d, Raise DownloadError)
        else if sparse_ok o && (0 <=? total_size - 1) then
          ({| output_file := Some (zeros total_size);
              state_file := state_file d |}, Ok ())
        else if truncate_ok o && (0 <=? total_size) then
          ({| output_file := Some (zeros total_size);
              state_file := state_file d |}, Ok ())
        else
          ({| output_file := Some []; state_file := state_file d |},
           Raise DownloadError)
    end.

(** What writing the state file comes to. *)
Inductive write_outcome :=
  | WriteOk
  | OpenFails
  | WriteFails.

(** The dictionary [state] of [_save_state] as [json.loads] reads it
    back.  The time stamp is left out: the coordinator never reads
    it. *)
Definition state_json (uri : string) (total_size : Z) (st : dl_state) : json :=
  JObj (<["uri" := JStr uri]>
        (<["total_size" := JInt total_size]>
         (<["completed_segments" :=
              JArr (of_key <$> elements (completed_segments st))]>
          (<["segment_progress" := segment_progress st]> ∅)))).

(** The body of the [try] of [_save_state].  A write that fails after
    the file was opened leaves a text that is not JSON. *)
Definition write_state_file
    (w : write_outcome) (uri : string) (total_size : Z) (st : dl_state) (d : fs)
    : fs * res unit :=
  match w with
  | WriteOk =>
      ({| output_file := output_file d;
          state_file := Some (Ok (state_json uri total_size st)) |},
       Ok ())
  | OpenFails => (d, Raise OSError)
  | WriteFails =>
      ({| output_file := output_file d; state_file := Some (Raise ValueError) |},
       Raise OSError)
  end.

(** [_save_state]: [except Exception] logs what the write raised.  The
    save is taken as one step: no task settles between the moment the
    state is read and the moment the file is written. *)
Definition _save_state
    (w : write_outcome) (uri : string) (total_size : Z) (st : dl_state) (d : fs)
    : fs * res unit :=
  match write_state_file w uri total_size st d with
  | (d', Ok _) => (d', Ok ())
  | (d', Raise _) => (d', Ok ())
  end.

(** A fetch task as it is created: its segment, and the resume offset
    read from [segment_progress] at that moment. *)
Record task := {
  task_id : nat;
  task_range : CalcSegments.segment;
  task_offset : Z
}.

(** [int(segment_progress.get(str(i), 0))]. *)
Definition resume_offset (progress : json) (i : nat) : res Z :=
  v ← py_get progress (pretty i);
  py_int v.

(** [for i, byte_range in enumerate(segments)], counting from [i].  An
    exception raised for one segment ends the loop: the tasks created
    before it are never awaited. *)
Fixpoint spawn_from
    (i : nat) (segments : list CalcSegments.segment) (st : dl_state)
    : res (list task) :=
  match segments with
  | [] => Ok []
  | byte_range :: rest =>
      if bool_decide (segment_key i ∈ completed_segments st)
      then spawn_from (S i) rest st
      else
        offset ← resume_offset (segment_progress st) i;
        tasks ← spawn_from (S i) rest st;
        Ok ({| task_id := i; task_range := byte_range; task_offset := offset |}
              :: tasks)
  end.

Definition spawn (segments : list CalcSegments.segment) (st : dl_state)
    : res (list task) :=
  spawn_from 0 segments st.

Fixpoint find_task (i : nat) (tasks : list task) : option task :=
  match tasks with
  | [] => None
  | t :: rest => if bool_decide (task_id t = i) then Some t else find_task i rest
  end.

(** [if key in segment_progress: del segment_progress[key]]; on what is
    not a dictionary the test or the deletion raises, and the callback
    swallows it. *)
Definition del_key (key : string) (progress : json) : json :=
  match progress with
  | JObj members => JObj (delete key members)
  | _ => progress
  end.

(** The done-callback of a task. *)
Definition callback (segment_id : nat) (result : res bool) (st : dl_state) : dl_state :=
  match result with
  | Ok true =>
      {| completed_segments := {[segment_key segment_id]} ∪ completed_segments st;
         segment_progress := del_key (pretty segment_id) (segment_progress st) |}
  | _ => st
  end.

(** What happens while the coordinator waits: a task settles (its
    fetcher returned or raised), or the periodic updater writes the
    state file. *)
Inductive event :=
  | Settle (i : nat)
  | Checkpoint (w : write_outcome).

(** The coordinator while it waits: the files, the shared state, the
    tasks that have settled, and whether the updater task is alive
    ([Ok]) or died of an exception. *)
Record run_state := {
  disk : fs;
  mem : dl_state;
  settled : gset nat;
  updater : res unit
}.

(** What the download runs against: the configured number of attempts,
    what the server answers to attempt [n] for segment [i]
    ([server i n]), and the operating system. *)
Record env := {
  retry_times : nat;
  server : nat → nat → http_result;
  os : io
}.

(** One event.  A task settles once: its fetcher runs against the
    output file as it is then, and its done-callback updates the shared
    state.  A checkpoint writes the shared state as it is then. *)
Definition on_event
    (e : env) (uri : string) (total_size : Z) (tasks : list task)
    (s : run_state) (ev : event) : run_state :=
  match ev with
  | Settle i =>
      match find_task i tasks with
      | None => s
      | Some t =>
          if bool_decide (i ∈ settled s) then s
          else
            let '(file', result) :=
              download_segment_async (retry_times e) (output_file (disk s))
                (task_range t) (server e i) (task_offset t) in
            {| disk := {| output_file := file';
                          state_file := state_file (disk s) |};
               mem := callback i result (mem s);
               settled := {[i]} ∪ settled s;
               updater := updater s |}
      end
  | Checkpoint w =>
      match updater s with
      | Raise _ => s
      | Ok _ =>
          let '(d', r) := _save_state w uri total_size (mem s) (disk s) in
          {| disk := d'; mem := mem s; settled := settled s; updater := r |}
      end
  end.

Definition run_events
    (e : env) (uri : string) (total_size : Z) (tasks : list task)
    (s : run_state) (trace : list event) : run_state :=
  foldl (on_event e uri total_size tasks) s trace.

(** The wait for the gathered tasks: [trace] is what happens before the
    final state is saved, in order; nothing is waited for when no task
    was created. *)
Definition await_tasks
    (e : env) (uri : string) (total_size : Z) (tasks : list task)
    (s : run_state) (trace : list event) : run_state :=
  match tasks with
  | [] => s
  | _ => run_events e uri total_size tasks s trace
  end.

(** Lines 298-305 and 383-390: the state file is removed when the
    completed set has as many members as the plan has segments.  The
    file was written or read by this run; its deletion is taken to
    succeed. *)
Definition finish (total_segments : nat) (st : dl_state) (d : fs) : fs :=
  if bool_decide (size (completed_segments st) = total_segments)
  then {| output_file := output_file d; state_file := None |}
  else d.

(** [_download_without_progress]; the branch with the progress bar
    runs the same statements around the calls that draw the bar. *)
Definition _download_without_progress
    (e : env) (trace : list event) (final_write : write_outcome)
    (uri : string) (segments : list CalcSegments.segment)
    (total_size : Z) (d : fs) (st : dl_state) : fs * dl_state * res unit :=
  match spawn segments st with
  | Raise x => (d, st, Raise x)
  | Ok tasks =>
      let s :=
        await_tasks e uri total_size tasks
          {| disk := d; mem := st; settled := ∅; updater := Ok () |} trace in
      match updater s with
      | Raise x => (disk s, mem s, Raise x)
      | Ok _ =>
          match _save_state final_write uri total_size (mem s) (disk s) with
          | (d', Raise x) => (d', mem s, Raise x)
          | (d', Ok _) => (finish (length segments) (mem s) d', mem s, Ok ())
          end
      end
  end.

(** [download_file_async]: the files and the shared state at the end,
    and the path returned or the exception raised. *)
Definition download_file_async
    (e : env) (trace : list event) (final_write : write_outcome)
    (uri file_path : string) (segments : list CalcSegments.segment)
    (resume : bool) (d : fs) : fs * dl_state * res string :=
  match last segments with
  | None => (d, fresh, Raise IndexError)
  | Some (_, last_end) =>
      let total_size := last_end + 1 in
      match check_resume (os e) resume uri total_size d with
      | (d1, Raise x) => (d1, fresh, Raise x)
      | (d1, Ok st) =>
          match create_file (os e) total_size d1 with
          | (d2, Raise x) => (d2, st, Raise x)
          | (d2, Ok _) =>
              match _download_without_progress e trace final_write uri segments
                      total_size d2 st with
              | (d3, st', Raise x) => (d3, st', Raise x)
              | (d3, st', Ok _) => (d3, st', Ok file_path)
              end
          end
      end
  end.

(** What the resume check comes to when it gives up the two files: it
    deletes the output file, then the state file, and starts fresh; a
    deletion that is refused ends the download with [OSError]. *)
Definition discarded_files (o : io) (d : fs) : fs * res dl_state :=
  if unlink_output_ok o then
    if unlink_state_ok o
    then ({| output_file := None; state_file := None |}, Ok fresh)
    else ({| output_file := None; state_file := state_file d |}, Raise OSError)
  else (d, Raise OSError).

(** The invariant of the specification on the shared state: no segment
    id is both completed and a key of the progress dictionary. *)
Definition disjoint_state (st : dl_state) : Prop :=
  ∀ i : nat, segment_key i ∈ completed_segments st →
             entries (segment_progress st) !! pretty i = None.

(** Two traces in which the same tasks settle in the same order and the
    updater runs at the same moments; only what its writes come to may
    differ. *)
Definition same_event (a b : event) : Prop :=
  match a, b with
  | Settle i, Settle j => i = j
  | Checkpoint _, Checkpoint _ => True
  | _, _ => False
  end.

Definition same_schedule (t1 t2 : list event) : Prop := Forall2 same_event t1 t2.

(** Two run states that differ at most in the state file. *)
Definition same_but_state_file (s1 s2 : run_state) : Prop :=
  mem s1 = mem s2
  ∧ settled s1 = settled s2
  ∧ output_file (disk s1) = output_file (disk s2)
  ∧ updater s1 = Ok () ∧ updater s2 = Ok ().

End DownloadManager.

(** ** Scenarios *)

Module Scenario.
Import DownloadSegment Json DownloadManager.
Local Open Scope string_scope.

Definition all_ok : io :=
  {| mkdir_ok := true; open_ok := true; sparse_ok := true; truncate_ok := true;
     unlink_output_ok := true; unlink_state_ok := true |}.

Definition no_files : fs := {| output_file := None; state_file := None |}.

(** A server that never answers. *)
Definition silent : env :=
  {| retry_times := 2; server := λ _ _, Timeout; os := all_ok |}.

(** A server that answers every request with 206 and five bytes, the
    length of both segments of [halves]. *)
Definition serving : env :=
  {| retry_times := 2;
     server := λ _ _, Response 206 [xff; xff; xff; xff; xff];
     os := all_ok |}.

(** A server that serves segment 0 and never answers for the others. *)
Definition first_only : env :=
  {| retry_times := 2;
     server := λ i _, match i with
                      | O => Response 206 [xff; xff; xff; xff; xff]
                      | S _ => Timeout
                      end;
     os := all_ok |}.

Definition halves : list CalcSegments.segment := [(0, 4); (5, 9)].

(** The state file of a download of ["http://h/f"], ten bytes long. *)
Definition state_of (completed progress : json) : json :=
  JObj (list_to_map [("uri", JStr "http://h/f"); ("total_size", JInt 10);
                     ("completed_segments", completed);
                     ("segment_progress", progress)]).

(** A state file that lists segment 0 both as completed and as in
    progress. *)
Definition overlapping : json :=
  state_of (JArr [JInt 0]) (JObj {["0" := JInt 3]}).

(** A state file that lists segment 0 as completed and segment 1 as in
    progress. *)
Definition halfway : json :=
  state_of (JArr [JInt 0]) (JObj {["1" := JInt 3]}).

(** A state file left by a plan of four segments, of which the first
    and the last were completed. *)
Definition four_segments : json :=
  state_of (JArr [JInt 0; JInt 3]) (JObj ∅).

(** A state file whose total size was written as the float [10.0]. *)
Definition float_size : json :=
  JObj (list_to_map [("uri", JStr "http://h/f");
                     ("total_size", JFloat (Finite (Z2Qc 10)));
                     ("completed_segments", JArr [JInt 0]);
                     ("segment_progress", JObj {["1" := JInt 3]})]).

(** A state file whose progress entries are a list. *)
Definition progress_list : json :=
  state_of (JArr [JInt 0]) (JArr [JInt 3]).

(** A state file left by the download of another resource. *)
Definition stale : json :=
  JObj (list_to_map [("uri", JStr "http://h/other"); ("total_size", JInt 10);
                     ("completed_segments", JArr [JInt 0; JInt 1; JInt 2])]).

End Scenario.

(** ** An origin server that serves a resource *)

Module Origin.
Import DownloadSegment DownloadManager.

(** The bytes [[start, end]] of the resource. *)
Definition slice (content : list byte) (byte_range : CalcSegments.segment) : list byte :=
  take (Z.to_nat (byte_range.2 - byte_range.1 + 1))
       (drop (Z.to_nat byte_range.1) content).

(** The server answers the first request for every segment with status
    200 or 206 and the bytes of its range. *)
Definition serves
    (content : list byte) (segments : list CalcSegments.segment) (e : env) : Prop :=
  ∀ (i : nat) byte_range,
    segments !! i = Some byte_range →
    ∃ status,
      server e i 0%nat = Response status (slice content byte_range)
      ∧ (status = 200 ∨ status = 206).

(** Every task settles before the final state is saved. *)
Definition settles_all (total_segments : nat) (trace : list event) : Prop :=
  ∀ i : nat, (i < total_segments)%nat → Settle i ∈ trace.

End Origin.

(** ** config.py: the configuration file *)

Module Config.

Import Json.

(** The items of [DEFAULT_CONFIG], in the order of the dictionary;
    [downloads] is the [downloads] directory under the home directory. *)
Definition DEFAULT_CONFIG (downloads : string) : list (string * json) :=
  [("user_agent",
    JStr "Mozilla/5.0 (Windows NT 10.0; Win64; x64; rv:139.0) Gecko/20100101 Firefox/139.0");
   ("segments_amount", JInt 64);
   ("download_path", JStr downloads);
   ("retry_times", JInt 32);
   ("chunk_size", JInt 8192);
   ("timeout", JInt 3600);
   ("progress_bar", JBool true)]%string.

Definition defaults (downloads : string) : json :=
  JObj (list_to_map (DEFAULT_CONFIG downloads)).

(** [sub in s] on strings. *)
Fixpoint find (sub s : list ascii) : bool :=
  PyStr.startswith sub s
  || match s with
     | [] => false
     | _ :: rest => find sub rest
     end.

Definition is_str (key : string) (item : json) : bool :=
  match item with
  | JStr s => String.eqb s key
  | _ => false
  end.

(** [key in config]: a key of a dictionary, an element of a list, a
    piece of a string; [TypeError] on what cannot be iterated. *)
Definition py_in (key : string) (config : json) : res bool :=
  match config with
  | JObj members => Ok (bool_decide (is_Some (members !! key)))
  | JArr items => Ok (existsb (is_str key) items)
  | JStr s =>
      Ok (find (String.list_ascii_of_string key) (String.list_ascii_of_string s))
  | JNull | JBool _ | JInt _ | JFloat _ => Raise TypeError
  end.

(** [config[key] = value]: only a dictionary takes a string key. *)
Definition setitem (config : json) (key : string) (value : json) : res json :=
  match config with
  | JObj members => Ok (JObj (<[key:=value]> members))
  | _ => Raise TypeError
  end.

(** The loop over [DEFAULT_CONFIG.items()]. *)
Fixpoint fill_defaults (items : list (string * json)) (config : json) : res json :=
  match items with
  | [] => Ok config
  | (key, value) :: rest =>
      present ← py_in key config;
      config ← (if present : bool then Ok config else setitem config key value);
      fill_defaults rest config
  end.

(** The configuration directory: missing, or there with or without the
    file; the file is held as what [json.load] makes of it. *)
Inductive fs :=
  | NoDir
  | Dir (config_file : option (res json)).

(** What the operating system allows: [mkdir], opening the file for
    writing, opening it for reading. *)
Record io := { mkdir_ok : bool; write_ok : bool; read_ok : bool }.

(** [load_config]: a failing [mkdir] or a failing first write leaves as
    [OSError]; everything that goes wrong with an existing file gives
    the defaults. *)
Definition load_config (downloads : string) (e : io) (d : fs) : fs * res json :=
  let config_file :=
    match d with
    | NoDir => if mkdir_ok e then Ok None else Raise OSError
    | Dir config_file => Ok config_file
    end in
  match config_file with
  | Raise x => (d, Raise x)
  | Ok None =>
      if write_ok e then
        (Dir (Some (Ok (defaults downloads))), Ok (defaults downloads))
      else (Dir None, Raise OSError)
  | Ok (Some content) =>
      (d,
       Ok match (if read_ok e then content else Raise OSError)
                ≫= fill_defaults (DEFAULT_CONFIG downloads) with
          | Ok config => config
          | Raise _ => defaults downloads
          end)
  end.

End Config.

(** ** clipboard_monitor.py: the clipboard monitor *)

Module ClipboardMonitor.

(** The dictionary [result] of the dialog when its window has closed. *)
Record dialog_result := {
  ok : bool;
  url : string;
  filename : string;
  login : string;
  password : string
}.

(** What [show_download_prompt] returns. *)
Record answer := {
  download : bool;
  answer_url : option string;
  credentials : option (string * string);
  answer_filename : option string
}.

Definition declined : answer :=
  {| download := false; answer_url := None; credentials := None;
     answer_filename := None |}.

Definition truthy (s : string) : bool := negb (String.eqb s "").

(** The end of [show_download_prompt]: [shown] is the dictionary the
    dialog left, or the exception one of its calls raised. *)
Definition show_download_prompt (shown : res dialog_result) : answer :=
  match shown with
  | Ok result =>
      if ok result then
        {| download := true;
           answer_url := Some (url result);
           credentials :=
             if truthy (login result) && truthy (password result)
             then Some (login result, password result) else None;
           answer_filename :=
             if truthy (filename result) then Some (filename result) else None |}
      else declined
  | Raise _ => declined
  end.

(** What the monitor does that can be seen: a dialog shown for a URL, a
    download thread started with the arguments of [_start_download]. *)
Inductive event :=
  | Prompt (detected_url : string)
  | Start (url : option string) (filename : option string).

Section monitor.

(** [search text] tells whether [url_pattern.search(text)] finds a
    match; [urlparse text] gives the scheme and the network location. *)
Variable search : string → bool.
Variable urlparse : string → res (string * string).

Definition is_valid_url (text : string) : bool :=
  if truthy text then
    if search text then
      match urlparse text with
      | Ok (scheme, netloc) => truthy scheme && truthy netloc
      | Raise _ => false
      end
    else false
  else false.

(** One turn of the loop of [_monitor_clipboard]: [paste] is what
    [pyperclip.paste()] gives, [shown] what the dialog would come to.
    Returns the new [last_clipboard_content] and the events. *)
Definition poll (downloader : bool) (last_clipboard_content : string)
    (paste : res string) (shown : res dialog_result) : string * list event :=
  match paste with
  | Raise _ => (last_clipboard_content, [])
  | Ok clipboard_content =>
      if negb (String.eqb clipboard_content last_clipboard_content)
         && is_valid_url clipboard_content
      then
        let a := show_download_prompt shown in
        (clipboard_content,
         Prompt clipboard_content
           :: if download a && downloader
              then [Start (answer_url a) (answer_filename a)] else [])
      else (last_clipboard_content, [])
  end.

(** The loop, one element of [turns] for each time round. *)
Fixpoint _monitor_clipboard (downloader : bool) (last_clipboard_content : string)
    (turns : list (res string * res dialog_result)) : list event :=
  match turns with
  | [] => []
  | (paste, shown) :: rest =>
      let '(last, events) := poll downloader last_clipboard_content paste shown in
      events ++ _monitor_clipboard downloader last rest
  end.

End monitor.

(** The URLs the dialogs were shown for. *)
Definition prompts (events : list event) : list string :=
  omap (λ ev, match ev with Prompt u => Some u | Start _ _ => None end) events.

(** The clipboard contents that were read. *)
Definition readings (turns : list (res string * res dialog_result)) : list string :=
  omap (λ turn, match turn.1 with Ok text => Some text | Raise _ => None end) turns.

(** A list without the elements equal to the one before them, [last]
    standing before the first. *)
Fixpoint squash (last : string) (l : list string) : list string :=
  match l with
  | [] => []
  | x :: rest => if String.eqb x last then squash last rest else x :: squash x rest
  end.

End ClipboardMonitor.

(** * Properties *)

Section planner.
Import CalcSegments.

Example get_segment_1MiB_4 :
  get_segment 1048576 4
  = Ok [(0, 262143); (262144, 524287); (524288, 786431); (786432, 1048575)].
Proof. reflexivity. Qed.

Example get_segment_10_64 :
  get_segment 10 64
  = Ok [(0,0); (1,1); (2,2); (3,3); (4,4); (5,5); (6,6); (7,7); (8,8); (9,9)].
Proof. reflexivity. Qed.

Example get_segment_zero_size : get_segment 0 4 = Raise ValueError.
Proof. reflexivity. Qed.

Example get_segment_zero_count : get_segment 10 0 = Raise ZeroDivisionError.
Proof. reflexivity. Qed.

Example get_segment_negative_count : get_segment 10 (-3) = Raise IndexError.
Proof. reflexivity. Qed.

Lemma set_last_end_cons2 x y l v :
  set_last_end (x :: y :: l) v = x :: set_last_end (y :: l) v.
Proof. by destruct x. Qed.

Lemma length_set_last_end l v : length (set_last_end l v) = length l.
Proof.
  induction l as [|[s e] [|y l] IH]; [done..|].
  rewrite set_last_end_cons2. simpl in *. by rewrite IH.
Qed.

(** [k + 1] starts spaced [w] apart from [lo], the last one below [hi]
    and at most [w] away from it, tile [[lo, hi)] once the last end is
    moved to [hi - 1]. *)
Lemma tiles_starts w hi (k : nat) : ∀ lo,
  0 < w →
  lo + Z.of_nat k * w < hi ≤ lo + (Z.of_nat k + 1) * w →
  tiles lo
    (set_last_end
       ((λ x, (x, x + w - 1)) <$>
          ((λ i : nat, lo + Z.of_nat i * w) <$> seq 0 (S k)))
       (hi - 1))
    hi.
Proof.
  induction k as [|k IH]; intros lo Hw Hhi.
  - simpl. lia.
  - change (seq 0 (S (S k))) with (0%nat :: seq 1 (S k)).
    rewrite <- fmap_S_seq, !fmap_cons, <- !list_fmap_compose.
    change (seq 0 (S k)) with (0%nat :: seq 1 k).
    rewrite fmap_cons, set_last_end_cons2, <- fmap_cons.
    change (0%nat :: seq 1 k) with (seq 0 (S k)).
    cbn [tiles]. split; [lia|]. split; [lia|].
    specialize (IH (lo + w) Hw).
    rewrite <- list_fmap_compose in IH.
    replace (lo + Z.of_nat 0 * w + w - 1 + 1) with (lo + w) by lia.
    erewrite list_fmap_ext; [apply IH; lia|].
    intros i n _. simpl. f_equal; lia.
Qed.

(** What [get_segment] returns for a positive size and a count of at
    least one: ranges that tile [[0, size)], one for every multiple of
    the width below [size]. *)
Lemma get_segment_tiles size n :
  0 < size → 1 ≤ n →
  ∃ segs,
    get_segment size n = Ok segs
    ∧ tiles 0 segs size
    ∧ Z.of_nat (length segs)
      = (size - 1) `div` (size `div` Z.min n size) + 1.
Proof.
  intros Hsize Hn. unfold get_segment.
  destruct (size <=? 0) eqn:E; [lia|]. clear E.
  set (m := Z.min n size).
  assert (Hm : (if m <? n then m else n) = m).
  { destruct (m <? n) eqn:E; [done|]. unfold m in *. lia. }
  rewrite Hm. assert (1 ≤ m ≤ size) as Hm' by (unfold m; lia).
  unfold Py.floordiv. destruct (m =? 0) eqn:E; [lia|]. clear E.
  cbn [mbind res_bind].
  set (w := size `div` m).
  assert (1 ≤ w) as Hw.
  { unfold w. apply Z.div_le_lower_bound; lia. }
  unfold Py.range. destruct (w =? 0) eqn:E; [lia|]. clear E.
  cbn [mbind res_bind]. unfold Py.range_len.
  destruct (0 <? w) eqn:E; [|lia]. clear E.
  destruct (0 <? size) eqn:E; [|lia]. clear E.
  replace (size - 0 - 1) with (size - 1) by lia.
  set (q := (size - 1) `div` w).
  assert (0 ≤ q) by (apply Z.div_pos; lia).
  assert (q * w ≤ size - 1 < (q + 1) * w) as Hq.
  { pose proof (Z.div_mod (size - 1) w ltac:(lia)) as Hdiv.
    pose proof (Z.mod_pos_bound (size - 1) w ltac:(lia)) as Hmod.
    fold q in Hdiv. lia. }
  replace (Z.to_nat (q + 1)) with (S (Z.to_nat q)) by lia.
  pose proof (tiles_starts w size (Z.to_nat q) 0 ltac:(lia) ltac:(lia)) as Ht.
  change (seq 0 (S (Z.to_nat q))) with (0%nat :: seq 1 (Z.to_nat q)) in *.
  rewrite !fmap_cons in *.
  eexists. split; [done|]. split; [exact Ht|].
  rewrite length_set_last_end. simpl.
  rewrite !length_fmap, length_seq. lia.
Qed.

(** The number of ranges is the requested one exactly when the
    effective count divides the size; otherwise the remainder gets
    ranges of its own. *)
Lemma get_segment_count_iff size n segs :
  0 < size → 1 ≤ n →
  get_segment size n = Ok segs →
  (Z.of_nat (length segs) = Z.min n size ↔ size `mod` Z.min n size = 0)
  ∧ Z.min n size ≤ Z.of_nat (length segs).
Proof.
  intros Hsize Hn Hget.
  destruct (get_segment_tiles size n Hsize Hn) as (segs' & Hget' & _ & Hlen).
  rewrite Hget in Hget'. injection Hget' as <-. rewrite Hlen. clear Hget Hlen.
  set (m := Z.min n size). assert (1 ≤ m ≤ size) as Hm by (unfold m; lia).
  clearbody m. pose proof (Z.div_mod size m ltac:(lia)) as Hdm.
  pose proof (Z.mod_pos_bound size m ltac:(lia)) as Hr.
  set (w := size `div` m) in *. set (r := size `mod` m) in *.
  assert (1 ≤ w) as Hw by (unfold w; apply Z.div_le_lower_bound; lia).
  clearbody w r.
  destruct (decide (r = 0)) as [->|Hne].
  - assert ((size - 1) `div` w = m - 1) as ->; [|lia].
    symmetry. apply (Z.div_unique_pos _ _ _ (w - 1)); nia.
  - assert (m ≤ (size - 1) `div` w); [|lia].
    apply Z.div_le_lower_bound; nia.
Qed.

(** C1 (the count): asked for 4 ranges over 10 bytes, [get_segment]
    returns 5, not [min 4 10]; the ranges still tile [[0, 10)]. *)
Theorem get_segment_10_4_returns_5 :
  get_segment 10 4 = Ok [(0, 1); (2, 3); (4, 5); (6, 7); (8, 9)]
  ∧ tiles 0 [(0, 1); (2, 3); (4, 5); (6, 7); (8, 9)] 10
  ∧ Z.of_nat (length [(0, 1); (2, 3); (4, 5); (6, 7); (8, 9)]) ≠ Z.min 4 10.
Proof. split; [reflexivity|]. split; [simpl; lia|]. simpl. lia. Qed.

Lemma get_segment_one size : 0 < size → get_segment size 1 = Ok [(0, size - 1)].
Proof.
  intros Hsize. unfold get_segment.
  destruct (size <=? 0) eqn:E; [lia|]. clear E.
  replace (Z.min 1 size) with 1 by lia. simpl.
  rewrite Z.div_1_r. unfold Py.range, Py.range_len.
  destruct (size =? 0) eqn:E; [lia|]. clear E.
  destruct (0 <? size) eqn:E; [|lia]. clear E.
  replace ((size - 0 - 1) `div` size) with 0
    by (symmetry; apply Z.div_small; lia).
  reflexivity.
Qed.

End planner.

Section probe_examples.
Import FileInfoManager.
Local Open Scope string_scope.

Example int_plain : PyStr.int "1048576" = Ok 1048576.
Proof. reflexivity. Qed.

Example int_spaces_sign : PyStr.int "  -1_000 " = Ok (-1000).
Proof. reflexivity. Qed.

Example int_leading_zeros : PyStr.int "007" = Ok 7.
Proof. reflexivity. Qed.

Example int_space_after_sign : PyStr.int "- 1" = Raise ValueError.
Proof. reflexivity. Qed.

Example int_double_underscore : PyStr.int "1__2" = Raise ValueError.
Proof. reflexivity. Qed.

Example int_star : PyStr.int "*" = Raise ValueError.
Proof. reflexivity. Qed.

Example int_empty : PyStr.int "" = Raise ValueError.
Proof. reflexivity. Qed.

Example split_last_slash : PyStr.split_last "/" "bytes 0-1/1000" = "1000".
Proof. reflexivity. Qed.

Example split_last_none : PyStr.split_last "/" "bytes 0-1" = "bytes 0-1".
Proof. reflexivity. Qed.

Example size_from_range_total :
  _extract_file_size [("Content-Range", "bytes 0-1/1000")] = Some 1000.
Proof. reflexivity. Qed.

Example size_from_range_end :
  _extract_file_size [("content-range", "bytes 0-499")] = Some 499.
Proof. reflexivity. Qed.

Example size_from_unknown_total :
  _extract_file_size [("Content-Range", "bytes 0-1/*"); ("Content-Length", "2")]
  = Some 2.
Proof. reflexivity. Qed.

Example size_bad_length : _extract_file_size [("Content-Length", "abc")] = None.
Proof. reflexivity. Qed.

End probe_examples.

Section parsing.
Local Open Scope Z_scope.

Local Abbreviation chars := String.list_ascii_of_string.
Local Abbreviation digit c := (is_Some (PyStr.digit_val c)).

Lemma chars_app a b : chars (a +:+ b) = chars a ++ chars b.
Proof. induction a as [|c a IH]; [done|]. simpl. by rewrite <- IH. Qed.

Lemma digit_val_pretty_N_char (d : N) :
  (d < 10)%N → PyStr.digit_val (pretty_N_char d) = Some (Z.of_N d).
Proof.
  intros Hd.
  assert (d = 0 ∨ d = 1 ∨ d = 2 ∨ d = 3 ∨ d = 4 ∨ d = 5 ∨ d = 6 ∨ d = 7
          ∨ d = 8 ∨ d = 9)%N as Hcases by lia.
  repeat (destruct Hcases as [-> | Hcases]; [reflexivity|]). by subst.
Qed.

(** Reading back the digits that [pretty] wrote in front of [s]. *)
Lemma digits_pretty_N_go (x : N) : ∀ s prev,
  (0 < x)%N →
  PyStr.digits 0 prev (chars (pretty_N_go x s))
  = PyStr.digits (Z.of_N x) true (chars s).
Proof.
  induction (N.lt_wf_0 x) as [x _ IH]. intros s prev Hx.
  rewrite pretty_N_go_step by done.
  pose proof (N.div_mod x 10 ltac:(lia)) as Hdm.
  pose proof (N.mod_lt x 10 ltac:(lia)) as Hlt.
  destruct (decide (x `div` 10 = 0)%N) as [Hz | Hnz].
  - rewrite Hz, pretty_N_go_0. simpl.
    rewrite digit_val_pretty_N_char by done. f_equal. lia.
  - rewrite IH; [|apply N.div_lt; lia|lia]. simpl.
    rewrite digit_val_pretty_N_char by done. f_equal. lia.
Qed.

Lemma digits_pretty (n : N) :
  PyStr.digits 0 false (chars (pretty n)) = Some (Z.of_N n).
Proof.
  unfold pretty, pretty_N. case_decide as Hn; [by subst|].
  rewrite digits_pretty_N_go by lia. done.
Qed.

Lemma pretty_N_go_digits (x : N) : ∀ s,
  Forall (λ c, digit c) (chars s) →
  Forall (λ c, digit c) (chars (pretty_N_go x s)).
Proof.
  induction (N.lt_wf_0 x) as [x _ IH]. intros s Hs.
  destruct (decide (x = 0)%N) as [-> | Hx]; [by rewrite pretty_N_go_0|].
  rewrite pretty_N_go_step by lia. apply IH; [apply N.div_lt; lia|].
  simpl. constructor; [|done].
  rewrite digit_val_pretty_N_char; [by eexists|]. apply N.mod_lt. lia.
Qed.

Lemma pretty_digits (n : N) : Forall (λ c, digit c) (chars (pretty n)).
Proof.
  unfold pretty, pretty_N. case_decide.
  - repeat constructor. by eexists.
  - by apply pretty_N_go_digits.
Qed.

Lemma pretty_not_empty (n : N) : chars (pretty n) ≠ [].
Proof.
  intros Hnil. pose proof (digits_pretty n) as Hd. rewrite Hnil in Hd. done.
Qed.

Lemma digit_range c :
  digit c → (48 ≤ N_of_ascii c ≤ 57)%N.
Proof.
  unfold PyStr.digit_val. intros [z Hz].
  destruct (N.leb_spec 48 (N_of_ascii c)); [|done].
  destruct (N.leb_spec (N_of_ascii c) 57); [|done]. lia.
Qed.

Lemma digit_not_space c : digit c → PyStr.is_space c = false.
Proof.
  intros Hc%digit_range. unfold PyStr.is_space.
  destruct (N.leb_spec (N_of_ascii c) 13); [lia|].
  destruct (N.eqb_spec (N_of_ascii c) 32); [lia|].
  by rewrite !andb_false_r.
Qed.

Lemma digit_ne c (sep : ascii) :
  digit c → (N_of_ascii sep < 48 ∨ 57 < N_of_ascii sep)%N →
  Ascii.eqb c sep = false.
Proof.
  intros Hc%digit_range Hsep. apply Ascii.eqb_neq. intros ->. lia.
Qed.

Lemma lstrip_head c l : PyStr.is_space c = false → PyStr.lstrip (c :: l) = c :: l.
Proof. intros Hc. simpl. by rewrite Hc. Qed.

(** A text that starts and ends with characters that are not white space
    is its own [strip]. *)
Lemma strip_id c l d :
  PyStr.is_space c = false → PyStr.is_space d = false →
  PyStr.strip (c :: l ++ [d]) = c :: l ++ [d].
Proof.
  intros Hc Hd. unfold PyStr.strip. rewrite lstrip_head by done.
  assert (rev (c :: l ++ [d]) = d :: rev (c :: l)) as Hrev.
  { change (c :: l ++ [d]) with ((c :: l) ++ [d]). by rewrite rev_app_distr. }
  rewrite Hrev, lstrip_head by done. by rewrite <- Hrev, rev_involutive.
Qed.

Lemma strip_single c : PyStr.is_space c = false → PyStr.strip [c] = [c].
Proof. intros Hc. unfold PyStr.strip. simpl. rewrite Hc. simpl. by rewrite Hc. Qed.

Lemma strip_digits l : Forall (λ c, digit c) l → PyStr.strip l = l.
Proof.
  intros Hl. destruct l as [|c l]; [done|].
  apply Forall_cons in Hl as [Hc Hl].
  destruct l as [|d l _] using rev_ind.
  - by apply strip_single, digit_not_space.
  - apply Forall_app in Hl as [_ Hd]. apply Forall_cons in Hd as [Hd _].
    by apply strip_id; apply digit_not_space.
Qed.

(** [int] reads back every number that [str] writes. *)
Lemma int_pretty (n : N) : PyStr.int (pretty n) = Ok (Z.of_N n).
Proof.
  unfold PyStr.int. rewrite strip_digits by apply pretty_digits.
  pose proof (digits_pretty n) as Hd. pose proof (pretty_digits n) as Hall.
  destruct (chars (pretty n)) as [|c l]; [done|].
  apply Forall_cons in Hall as [Hc _]. apply digit_range in Hc.
  assert (PyStr.digits 0 false (c :: l) = Some (Z.of_N n) →
          match c :: l with
          | "-"%char :: r => Z.opp <$> PyStr.digits 0 false r
          | "+"%char :: r => PyStr.digits 0 false r
          | _ => PyStr.digits 0 false (c :: l)
          end = Some (Z.of_N n)) as Hsign.
  { destruct c as [[] [] [] [] [] [] [] []]; try done; vm_compute in Hc; lia. }
  by rewrite Hsign.
Qed.

(** A text that starts with ["b"] and ends with a digit is no integer. *)
Lemma int_bytes (t : string) m d :
  chars t = m ++ [d] → digit d →
  PyStr.int (String "b" t) = Raise ValueError.
Proof.
  intros Ht Hd. unfold PyStr.int. simpl chars. rewrite Ht.
  rewrite strip_id; [done|done|by apply digit_not_space].
Qed.

Lemma after_last_none sep s acc :
  Forall (λ c, Ascii.eqb c sep = false) (chars s) →
  PyStr.after_last sep s acc = acc.
Proof.
  induction s as [|c s IH]; intros Hs; [done|]. simpl in *.
  apply Forall_cons in Hs as [-> Hs]. by apply IH.
Qed.

Lemma after_last_app sep a b : ∀ acc,
  Forall (λ c, Ascii.eqb c sep = false) (chars b) →
  PyStr.after_last sep (a +:+ String sep b) acc = b.
Proof.
  induction a as [|c a IH]; intros acc Hb; simpl.
  - rewrite Ascii.eqb_refl. by apply after_last_none.
  - destruct (Ascii.eqb c sep); by apply IH.
Qed.

Lemma pretty_without (sep : ascii) (n : N) :
  (N_of_ascii sep < 48 ∨ 57 < N_of_ascii sep)%N →
  Forall (λ c, Ascii.eqb c sep = false) (chars (pretty n)).
Proof.
  intros Hsep. eapply Forall_impl; [apply pretty_digits|].
  intros c Hc. by apply digit_ne.
Qed.

(** The last piece of ["<anything>/Z"] is [Z]. *)
Lemma split_last_total (prefix : string) (z : N) :
  PyStr.split_last "/" (prefix +:+ String "/" (pretty z)) = pretty z.
Proof.
  unfold PyStr.split_last. apply after_last_app, pretty_without.
  vm_compute. left. done.
Qed.

Lemma pretty_ends (n : N) : ∃ m d, chars (pretty n) = m ++ [d] ∧ digit d.
Proof.
  pose proof (pretty_digits n) as Hall. pose proof (pretty_not_empty n) as Hne.
  destruct (chars (pretty n)) as [|d m _] using rev_ind; [done|].
  apply Forall_app in Hall as [_ Hd]. apply Forall_cons in Hd as [Hd _].
  by exists m, d.
Qed.

(** ["bytes X-Y"]: the whole text is no integer, and its last piece
    after ["-"] is [Y]. *)
Lemma bytes_range_pieces (x y : N) :
  let v := ("bytes " +:+ pretty x +:+ String "-" (pretty y))%string in
  PyStr.int (PyStr.split_last "/" v) = Raise ValueError
  ∧ PyStr.split_last "-" v = pretty y.
Proof.
  intros v. split.
  - assert (PyStr.split_last "/" v = v) as ->.
    { unfold PyStr.split_last. apply after_last_none. unfold v.
      rewrite !chars_app. simpl chars.
      repeat (apply Forall_cons; split; [done|]).
      apply Forall_app. split.
      - apply pretty_without. vm_compute. left. done.
      - apply Forall_cons. split; [done|].
        apply pretty_without. vm_compute. left. done. }
    destruct (pretty_ends y) as (m & d & Hy & Hd).
    unfold v. simpl.
    apply (int_bytes _ (chars ("ytes " +:+ pretty x) ++ "-"%char :: m) d);
      [|done].
    change (String "y" (String "t" (String "e" (String "s" (String " "
              (pretty x +:+ String "-" (pretty y)))))))
      with (("ytes " +:+ pretty x) +:+ String "-" (pretty y))%string.
    rewrite chars_app. simpl. rewrite Hy. by rewrite <- app_assoc.
  - unfold PyStr.split_last, v.
    replace ("bytes " +:+ pretty x +:+ String "-" (pretty y))%string
      with (("bytes " +:+ pretty x) +:+ String "-" (pretty y))%string.
    + apply after_last_app, pretty_without. vm_compute. left. done.
    + simpl. done.
Qed.

End parsing.

Section probe.
Import FileInfoManager Downloader.
Local Open Scope string_scope.

Lemma contains_is_Some h name : contains h name = true ↔ is_Some (get h name).
Proof.
  unfold contains. destruct (get h name); split; intros H; done.
Qed.

(** C5, as stated, fails: a response with [Accept-Ranges: none] and no
    Content-Range is reported as supporting ranges, and the 64 segments
    of the configuration are planned over its 1000 bytes, not one. *)
Lemma accept_ranges_none_supports_range :
  let h := [("Content-Length", "1000"); ("Accept-Ranges", "none")] in
  ∃ info,
    get_file_info_async (Responded {| status := 200; resp_headers := h |}) Failed
    = Ok info
    ∧ supports_range info = true
    ∧ spec_supports_range h = false
    ∧ ∃ segs, plan info None 64 = Ok segs ∧ length segs ≠ 1%nat.
Proof.
  eexists. split; [reflexivity|]. split; [reflexivity|].
  split; [reflexivity|]. eexists. split; [reflexivity|]. simpl. lia.
Qed.

(** C5, amended: [supports_range] is true exactly when the HEAD
    response carries an Accept-Ranges header, whatever its value, or a
    Content-Range header; when it is false, a known positive size is
    planned as the single segment [[0, size - 1]] whatever count was
    asked for. *)
Theorem supports_range_iff_header_present r range_get info :
  get_file_info_async (Responded r) range_get = Ok info →
  (supports_range info = true
   ↔ is_Some (get (resp_headers r) "Accept-Ranges")
     ∨ is_Some (get (resp_headers r) "Content-Range"))
  ∧ (supports_range info = false →
     ∀ file_size segments config_segments_amount,
       size info = Some file_size → 0 < file_size →
       plan info segments config_segments_amount = Ok [(0, file_size - 1)]).
Proof.
  unfold get_file_info_async. intros Hget.
  destruct (400 <=? status r)%Z; [done|].
  assert (supports_range info
          = contains (resp_headers r) "Accept-Ranges"
            || contains (resp_headers r) "Content-Range") as Hsr.
  { destruct (_extract_file_size (resp_headers r)); simpl in Hget.
    - by injection Hget as <-.
    - destruct range_get; [|done..]. by injection Hget as <-. }
  split.
  - rewrite Hsr, orb_true_iff, !contains_is_Some. done.
  - intros Hfalse file_size segments cfg Hsize Hpos.
    unfold plan, segments_count. rewrite Hsize, Hfalse. simpl.
    by apply get_segment_one.
Qed.

Lemma supports_range_iff_header_present_witness :
  let r := {| status := 200; resp_headers := [("Content-Length", "1000")] |} in
  ∃ info,
    get_file_info_async (Responded r) Failed = Ok info
    ∧ supports_range info = false
    ∧ plan info (Some 64) 8 = Ok [(0, 999)].
Proof.
  eexists. split; [reflexivity|]. split; [reflexivity|].
  refine (proj2 (supports_range_iff_header_present
                   {| status := 200; resp_headers := [("Content-Length", "1000")] |}
                   Failed _ eq_refl) eq_refl 1000 (Some 64) 8 eq_refl _).
  lia.
Defined.

(** C6, as stated, fails: with both headers present and in conflict,
    the total of Content-Range is returned, not Content-Length. *)
Lemma content_range_wins_over_content_length :
  let h := [("Content-Length", "2"); ("Content-Range", "bytes 0-1/1000")] in
  _extract_file_size h = Some 1000
  ∧ spec_extract_file_size h = Some 2
  ∧ _extract_file_size h ≠ spec_extract_file_size h.
Proof. split; [reflexivity|]. split; [reflexivity|]. simpl. discriminate. Qed.

(** C6, amended: Content-Range is tried first, the text after its last
    ["/"] and, failing that, the text after its last ["-"]; only when
    the header is absent or neither text is an integer is
    Content-Length used.  So ["<unit> X-Y/Z"] gives [Z] and
    ["bytes X-Y"] gives [Y], whatever Content-Length says. *)
Theorem extract_file_size_order h :
  (∀ v z, get h "Content-Range" = Some v →
          PyStr.int (PyStr.split_last "/" v) = Ok z →
          _extract_file_size h = Some z)
  ∧ (∀ v y, get h "Content-Range" = Some v →
            PyStr.int (PyStr.split_last "/" v) = Raise ValueError →
            PyStr.int (PyStr.split_last "-" v) = Ok y →
            _extract_file_size h = Some y)
  ∧ ((get h "Content-Range" = None
      ∨ ∃ v, get h "Content-Range" = Some v
             ∧ PyStr.int (PyStr.split_last "/" v) = Raise ValueError
             ∧ PyStr.int (PyStr.split_last "-" v) = Raise ValueError) →
     _extract_file_size h
     = match get h "Content-Length" with
       | Some v => match PyStr.int v with Ok n => Some n | Raise _ => None end
       | None => None
       end)
  ∧ (∀ (range : string) (z : N),
       get h "Content-Range" = Some (range +:+ String "/" (pretty z)) →
       _extract_file_size h = Some (Z.of_N z))
  ∧ (∀ x y : N,
       get h "Content-Range"
       = Some ("bytes " +:+ pretty x +:+ String "-" (pretty y)) →
       _extract_file_size h = Some (Z.of_N y))
  ∧ (∀ n : N,
       get h "Content-Range" = None →
       get h "Content-Length" = Some (pretty n) →
       _extract_file_size h = Some (Z.of_N n)).
Proof.
  unfold _extract_file_size. split_and!.
  - intros v z -> ->. done.
  - intros v y -> -> ->. done.
  - intros [-> | (v & -> & -> & ->)]; done.
  - intros range z ->. by rewrite split_last_total, int_pretty.
  - intros x y ->. destruct (bytes_range_pieces x y) as [-> ->].
    by rewrite int_pretty.
  - intros n -> ->. by rewrite int_pretty.
Qed.

Lemma extract_file_size_order_witness :
  _extract_file_size
    [("Content-Length", "2"); ("Content-Range", "bytes 0-1/1000")]
  = Some 1000.
Proof.
  apply (proj1 (extract_file_size_order
                  [("Content-Length", "2"); ("Content-Range", "bytes 0-1/1000")])
           "bytes 0-1/1000" 1000).
  - reflexivity.
  - reflexivity.
Defined.

End probe.

Section fetcher.
Import DownloadSegment.

Example write_at_inside :
  write_at [x00; x00; x00; x00] 1 [x01; x02] = [x00; x01; x02; x00].
Proof. reflexivity. Qed.

Example write_at_grows :
  write_at [x00; x00] 3 [x01; x02] = [x00; x00; x00; x01; x02].
Proof. reflexivity. Qed.

Example request_start_resumes : request_start (10, 19) 4 = 14.
Proof. reflexivity. Qed.

Example request_start_ignores_large_offset : request_start (10, 19) 10 = 10.
Proof. reflexivity. Qed.

Lemma request_start_bounds start_byte end_byte resume_offset :
  start_byte ≤ end_byte →
  start_byte ≤ request_start (start_byte, end_byte) resume_offset ≤ end_byte.
Proof.
  intros Hle. unfold request_start.
  destruct (0 <? resume_offset) eqn:E1; simpl; [|lia].
  destruct (resume_offset <? end_byte - start_byte + 1) eqn:E2; lia.
Qed.

(** A write at [pos] inside or at the end of the file changes nothing
    outside [[pos, pos + length data)]. *)
Lemma write_at_frame (f : list byte) pos data (k : nat) :
  (pos ≤ length f)%nat →
  write_at f pos data !! k ≠ f !! k →
  (pos ≤ k < pos + length data)%nat.
Proof.
  intros Hpos Hne. destruct (decide (pos ≤ k < pos + length data)%nat) as [|Hout];
    [done|]. exfalso. apply Hne. clear Hne.
  unfold write_at. destruct data as [|b data]; [done|].
  set (dat := b :: data) in *.
  replace (pos - length f)%nat with 0%nat by lia. simpl replicate.
  rewrite app_nil_l.
  destruct (decide (k < pos)%nat) as [Hlt|Hge].
  - rewrite lookup_app_l by (rewrite length_take; lia).
    apply lookup_take_lt. done.
  - rewrite lookup_app_r by (rewrite length_take; lia).
    rewrite length_take, Nat.min_l by lia.
    rewrite lookup_app_r by lia.
    rewrite lookup_drop. f_equal. lia.
Qed.

(** The written bytes are the body. *)
Lemma write_at_data (f : list byte) pos data (j : nat) :
  (pos ≤ length f)%nat → (j < length data)%nat →
  write_at f pos data !! (pos + j)%nat = data !! j.
Proof.
  intros Hpos Hj. unfold write_at. destruct data as [|b data]; [simpl in Hj; lia|].
  set (dat := b :: data) in *.
  replace (pos - length f)%nat with 0%nat by lia. simpl replicate.
  rewrite app_nil_l.
  rewrite lookup_app_r by (rewrite length_take; lia).
  rewrite length_take, Nat.min_l by lia.
  rewrite lookup_app_l by lia. f_equal. lia.
Qed.

(** A call that returns [True] wrote the body of one accepted response
    and nothing else. *)
Lemma attempts_success remaining : ∀ attempt f start_byte server f',
  attempts remaining attempt (Some f) start_byte server = (Some f', Ok true) →
  ∃ n, (attempt ≤ n < attempt + remaining)%nat
       ∧ try_attempt (Some f) start_byte (server n) = Ok f'.
Proof.
  induction remaining as [|remaining IH]; intros attempt f start_byte server f' H.
  - done.
  - simpl in H. destruct (try_attempt _ _ (server attempt)) as [g|x] eqn:E.
    + injection H as <-. exists attempt. split; [lia|done].
    + destruct (IH _ _ _ _ _ H) as (n & Hn & Htry). exists n. split; [lia|done].
Qed.

Lemma try_attempt_Ok file start_byte a f' :
  try_attempt file start_byte a = Ok f' →
  ∃ status segment_data f,
    a = Response status segment_data
    ∧ (status = 200 ∨ status = 206)
    ∧ file = Some f ∧ 0 ≤ start_byte
    ∧ f' = write_at f (Z.to_nat start_byte) segment_data.
Proof.
  destruct a as [| |status segment_data]; [done..|]. simpl.
  case_bool_decide as Hst; [|done]. simpl.
  destruct file as [f|]; [|done].
  destruct (start_byte <? 0) eqn:E; [done|].
  intros [= <-]. exists status, segment_data, f.
  repeat split; try done; [|lia].
  apply elem_of_cons in Hst as [->|Hst]; [by left|].
  apply elem_of_cons in Hst as [->|Hst]; [by right|].
  by apply elem_of_nil in Hst.
Qed.




(** C4, as stated, fails: a 200 response whose body is five bytes long
    is taken as the success of a request for two bytes. *)
Lemma status_200_accepted_with_any_length :
  let body := [xff; xff; xff; xff; xff] in
  download_segment_async 1 (Some [x00; x00; x00; x00; x00; x00]) (0, 1)
    (λ _ : nat, Response 200 body) 0
  = (Some [xff; xff; xff; xff; xff; x00], Ok true)
  ∧ Z.of_nat (length body) ≠ 1 - 0 + 1.
Proof. split; [reflexivity|]. simpl. lia. Qed.

(** C4, amended: an attempt succeeds exactly when the status is 200 or
    206, the output file exists and the request start is not negative;
    the length of the body plays no part, for 200 as for 206.  The
    first such attempt ends the call with [True]. *)
Theorem attempt_accepted_iff_status file start_byte status body :
  ((∃ f', try_attempt file start_byte (Response status body) = Ok f')
   ↔ (status = 200 ∨ status = 206) ∧ is_Some file ∧ 0 ≤ start_byte)
  ∧ ∀ f retry_times byte_range server resume_offset,
      file = Some f →
      start_byte = request_start byte_range resume_offset →
      0 ≤ start_byte → status = 200 ∨ status = 206 →
      server 0%nat = Response status body →
      download_segment_async (S retry_times) file byte_range server resume_offset
      = (Some (write_at f (Z.to_nat start_byte) body), Ok true).
Proof.
  assert (∀ f, 0 ≤ start_byte → status = 200 ∨ status = 206 →
          try_attempt (Some f) start_byte (Response status body)
          = Ok (write_at f (Z.to_nat start_byte) body)) as Hok.
  { intros f H0 Hst. simpl. rewrite bool_decide_true.
    - simpl. destruct (start_byte <? 0) eqn:E; [lia|done].
    - destruct Hst as [-> | ->]; set_solver. }
  split; [split|].
  - intros [f' Htry].
    destruct (try_attempt_Ok _ _ _ _ Htry)
      as (st & dat & g & [= <- <-] & Hst & -> & H0 & _). eauto.
  - intros (Hst & [f ->] & H0). eexists. by apply Hok.
  - intros f retry_times byte_range server resume_offset -> Hs H0 Hst Hresp.
    unfold download_segment_async. rewrite <- Hs. simpl attempts.
    rewrite Hresp. rewrite Hok by done. done.
Qed.

Lemma attempt_accepted_iff_status_witness :
  download_segment_async 3 (Some [x00; x00; x00; x00; x00; x00]) (0, 1)
    (λ _ : nat, Response 200 [xff; xff; xff; xff; xff]) 0
  = (Some (write_at [x00; x00; x00; x00; x00; x00] (Z.to_nat 0)
             [xff; xff; xff; xff; xff]), Ok true).
Proof.
  apply (proj2 (attempt_accepted_iff_status
                  (Some [x00; x00; x00; x00; x00; x00]) 0 200
                  [xff; xff; xff; xff; xff])).
  - reflexivity.
  - reflexivity.
  - lia.
  - left. reflexivity.
  - reflexivity.
Defined.

End fetcher.



(** * Further properties of the planner *)

Section planner_shape.
Import CalcSegments.

Lemma tiles_le segs : ∀ lo hi, tiles lo segs hi → lo ≤ hi.
Proof.
  induction segs as [|[s e] segs IH]; intros lo hi Ht; simpl in Ht; [lia|].
  destruct Ht as (-> & Hle & Ht). apply IH in Ht. lia.
Qed.

Lemma tiles_bounds segs : ∀ lo hi (i : nat) s e,
  tiles lo segs hi → segs !! i = Some (s, e) → lo ≤ s ∧ s ≤ e ∧ e < hi.
Proof.
  induction segs as [|[s0 e0] segs IH]; intros lo hi i s e Ht Hi; [done|].
  simpl in Ht. destruct Ht as (-> & Hle & Ht).
  pose proof (tiles_le _ _ _ Ht) as Hhi.
  destruct i as [|i]; simpl in Hi.
  - injection Hi as <- <-. lia.
  - destruct (IH _ _ _ _ _ Ht Hi) as (? & ? & ?). lia.
Qed.

Lemma tiles_ordered segs : ∀ lo hi (i j : nat) si ei sj ej,
  tiles lo segs hi → (i < j)%nat →
  segs !! i = Some (si, ei) → segs !! j = Some (sj, ej) → ei < sj.
Proof.
  induction segs as [|[s0 e0] segs IH]; intros lo hi i j si ei sj ej Ht Hij Hi Hj;
    [done|].
  simpl in Ht. destruct Ht as (-> & Hle & Ht).
  destruct j as [|j]; [lia|]. simpl in Hj.
  destruct i as [|i]; simpl in Hi.
  - injection Hi as <- <-.
    destruct (tiles_bounds _ _ _ _ _ _ Ht Hj) as (? & _). lia.
  - eapply IH; [exact Ht| |exact Hi|exact Hj]. lia.
Qed.

Lemma tiles_cover segs : ∀ lo hi k,
  tiles lo segs hi → lo ≤ k < hi →
  ∃ (i : nat) s e, segs !! i = Some (s, e) ∧ s ≤ k ≤ e.
Proof.
  induction segs as [|[s0 e0] segs IH]; intros lo hi k Ht Hk; simpl in Ht; [lia|].
  destruct Ht as (-> & Hle & Ht).
  destruct (decide (k ≤ e0)) as [Hin|Hout].
  - exists 0%nat, lo, e0. split; [done|lia].
  - destruct (IH (e0 + 1) hi k Ht ltac:(lia)) as (i & s & e & Hi & Hse).
    exists (S i), s, e. done.
Qed.

Lemma tiles_last segs : ∀ lo hi,
  tiles lo segs hi → segs ≠ [] → ∃ s, last segs = Some (s, hi - 1).
Proof.
  induction segs as [|[s0 e0] segs IH]; intros lo hi Ht Hne; [done|].
  simpl in Ht. destruct Ht as (-> & Hle & Ht).
  destruct segs as [|x segs].
  - simpl in Ht. exists lo. simpl. f_equal. f_equal. lia.
  - destruct (IH _ _ Ht ltac:(done)) as [s Hs]. exists s.
    by rewrite last_cons_cons.
Qed.

(** With the last end moved to [size - 1], the range at position [i] ends
    at [min (start + w - 1) (size - 1)]. *)
Lemma set_last_end_starts w size (k : nat) : ∀ lo,
  0 < w →
  lo + Z.of_nat k * w ≤ size - 1 < lo + (Z.of_nat k + 1) * w →
  set_last_end
    ((λ x, (x, x + w - 1)) <$> ((λ i : nat, lo + Z.of_nat i * w) <$> seq 0 (S k)))
    (size - 1)
  = (λ i : nat, (lo + Z.of_nat i * w,
                 Z.min (lo + Z.of_nat i * w + w - 1) (size - 1))) <$> seq 0 (S k).
Proof.
  induction k as [|k IH]; intros lo Hw Hk.
  - simpl. f_equal. f_equal. lia.
  - change (seq 0 (S (S k))) with (0%nat :: seq 1 (S k)).
    rewrite <- fmap_S_seq, !fmap_cons, <- !list_fmap_compose.
    change (seq 0 (S k)) with (0%nat :: seq 1 k) at 1.
    rewrite fmap_cons, set_last_end_cons2, <- fmap_cons.
    change (0%nat :: seq 1 k) with (seq 0 (S k)).
    f_equal; [f_equal; lia|].
    specialize (IH (lo + w) Hw ltac:(lia)).
    rewrite <- list_fmap_compose in IH.
    etrans; [etrans; [|exact IH]|].
    + f_equal. apply list_fmap_ext. intros i n _. simpl. f_equal; lia.
    + apply list_fmap_ext. intros i n _. simpl. f_equal; [lia|f_equal; lia].
Qed.

(** The ranges in closed form, for the width [w] and for the count that
    [range] yields. *)
Lemma get_segment_eq size n :
  0 < size → 1 ≤ n →
  let w := size `div` Z.min n size in
  get_segment size n
  = Ok ((λ i : nat, (Z.of_nat i * w, Z.min (Z.of_nat i * w + w - 1) (size - 1)))
          <$> seq 0 (Z.to_nat ((size - 1) `div` w + 1))).
Proof.
  intros Hsize Hn w. unfold get_segment.
  destruct (size <=? 0) eqn:E; [lia|]. clear E.
  set (m := Z.min n size) in *.
  assert (Hm : (if m <? n then m else n) = m).
  { destruct (m <? n) eqn:E; [done|]. unfold m in *. lia. }
  rewrite Hm. assert (1 ≤ m ≤ size) as Hm' by (unfold m; lia).
  unfold Py.floordiv. destruct (m =? 0) eqn:E; [lia|]. clear E.
  cbn [mbind res_bind]. fold w.
  assert (1 ≤ w) as Hw by (unfold w; apply Z.div_le_lower_bound; lia).
  unfold Py.range. destruct (w =? 0) eqn:E; [lia|]. clear E.
  cbn [mbind res_bind]. unfold Py.range_len.
  destruct (0 <? w) eqn:E; [|lia]. clear E.
  destruct (0 <? size) eqn:E; [|lia]. clear E.
  replace (size - 0 - 1) with (size - 1) by lia.
  set (q := (size - 1) `div` w).
  assert (0 ≤ q) by (apply Z.div_pos; lia).
  assert (q * w ≤ size - 1 < (q + 1) * w) as Hq.
  { pose proof (Z.div_mod (size - 1) w ltac:(lia)) as Hdiv.
    pose proof (Z.mod_pos_bound (size - 1) w ltac:(lia)) as Hmod.
    fold q in Hdiv. lia. }
  replace (Z.to_nat (q + 1)) with (S (Z.to_nat q)) by lia.
  pose proof (set_last_end_starts w size (Z.to_nat q) 0 ltac:(lia) ltac:(lia)) as Heq.
  change (seq 0 (S (Z.to_nat q))) with (0%nat :: seq 1 (Z.to_nat q)) in *.
  rewrite !fmap_cons in *. rewrite Heq. done.
Qed.

End planner_shape.

Section planner_extras.
Import CalcSegments.

(** X1: for a positive size and a count of at least one, [get_segment]
    returns ranges that lie inside [[0, size)], are none of them empty,
    cover every offset below [size], and come in ascending order with no
    two overlapping. *)
Theorem get_segment_partitions size n :
  0 < size → 1 ≤ n →
  ∃ segs,
    get_segment size n = Ok segs
    ∧ (∀ (i : nat) s e, segs !! i = Some (s, e) → 0 ≤ s ∧ s ≤ e ∧ e < size)
    ∧ (∀ k, 0 ≤ k < size →
         ∃ (i : nat) s e, segs !! i = Some (s, e) ∧ s ≤ k ≤ e)
    ∧ (∀ (i j : nat) si ei sj ej,
         (i < j)%nat → segs !! i = Some (si, ei) → segs !! j = Some (sj, ej) →
         ei < sj).
Proof.
  intros Hsize Hn.
  destruct (get_segment_tiles size n Hsize Hn) as (segs & Hget & Ht & _).
  exists segs. split; [done|]. split; [|split].
  - intros i s e Hi. by apply (tiles_bounds segs 0 size i).
  - intros k Hk. by apply (tiles_cover segs 0 size).
  - intros i j si ei sj ej Hij Hi Hj.
    by apply (tiles_ordered segs 0 size i j si ei sj ej).
Qed.

Lemma get_segment_partitions_witness :
  ∃ segs,
    get_segment 1000 64 = Ok segs
    ∧ (∀ (i : nat) s e, segs !! i = Some (s, e) → 0 ≤ s ∧ s ≤ e ∧ e < 1000)
    ∧ (∀ k, 0 ≤ k < 1000 →
         ∃ (i : nat) s e, segs !! i = Some (s, e) ∧ s ≤ k ≤ e)
    ∧ (∀ (i j : nat) si ei sj ej,
         (i < j)%nat → segs !! i = Some (si, ei) → segs !! j = Some (sj, ej) →
         ei < sj).
Proof. apply (get_segment_partitions 1000 64); lia. Defined.

(** X2: the number of ranges is at least the effective count
    [min n size] and less than twice that; it is the effective count
    exactly when that count divides the size. *)
Theorem get_segment_count_bounds size n segs :
  0 < size → 1 ≤ n →
  get_segment size n = Ok segs →
  Z.min n size ≤ Z.of_nat (length segs) ≤ 2 * Z.min n size - 1
  ∧ (Z.of_nat (length segs) = Z.min n size ↔ size `mod` Z.min n size = 0).
Proof.
  intros Hsize Hn Hget.
  rewrite (get_segment_eq size n Hsize Hn) in Hget. injection Hget as <-.
  rewrite length_fmap, length_seq.
  set (m := Z.min n size). assert (1 ≤ m ≤ size) as Hm by (unfold m; lia).
  clearbody m. pose proof (Z.div_mod size m ltac:(lia)) as Hdm.
  pose proof (Z.mod_pos_bound size m ltac:(lia)) as Hr.
  set (w := size `div` m) in *. set (r := size `mod` m) in *.
  assert (1 ≤ w) as Hw by (unfold w; apply Z.div_le_lower_bound; lia).
  clearbody w r.
  assert (0 ≤ (size - 1) `div` w) as Hq by (apply Z.div_pos; lia).
  rewrite Z2Nat.id by lia.
  assert ((size - 1) `div` w < 2 * m - 1) as Hup
    by (apply Z.div_lt_upper_bound; nia).
  destruct (decide (r = 0)) as [->|Hne].
  - assert ((size - 1) `div` w = m - 1) as Heq
      by (symmetry; apply (Z.div_unique_pos _ _ _ (w - 1)); nia).
    lia.
  - assert (m ≤ (size - 1) `div` w) by (apply Z.div_le_lower_bound; nia).
    lia.
Qed.

Lemma get_segment_count_bounds_witness :
  ∃ segs,
    get_segment 1000 64 = Ok segs
    ∧ Z.min 64 1000 ≤ Z.of_nat (length segs) ≤ 2 * Z.min 64 1000 - 1
    ∧ (Z.of_nat (length segs) = Z.min 64 1000 ↔ 1000 `mod` Z.min 64 1000 = 0).
Proof.
  eexists. split; [reflexivity|].
  apply (get_segment_count_bounds 1000 64); [lia|lia|reflexivity].
Defined.

(** X3: with [w = size // min n size], the range at position [i] starts
    at [i * w] and ends at [min (i * w + w - 1) (size - 1)]: every range
    but the last is [w] bytes long, and the last is at most [w] bytes
    long. *)
Theorem get_segment_ranges size n segs :
  0 < size → 1 ≤ n →
  get_segment size n = Ok segs →
  let w := size `div` Z.min n size in
  1 ≤ w
  ∧ ∀ (i : nat) s e,
      segs !! i = Some (s, e) →
      s = Z.of_nat i * w
      ∧ e = Z.min (s + w - 1) (size - 1)
      ∧ 1 ≤ e - s + 1 ≤ w
      ∧ ((S i < length segs)%nat → e - s + 1 = w)
      ∧ (S i = length segs → e = size - 1).
Proof.
  intros Hsize Hn Hget w.
  rewrite (get_segment_eq size n Hsize Hn) in Hget. injection Hget as <-.
  fold w. assert (1 ≤ Z.min n size ≤ size) as Hm by lia.
  assert (1 ≤ w) as Hw by (unfold w; apply Z.div_le_lower_bound; lia).
  split; [done|]. intros i s e Hi.
  rewrite length_fmap, length_seq.
  set (q := (size - 1) `div` w) in *.
  assert (0 ≤ q) by (apply Z.div_pos; lia).
  assert (q * w ≤ size - 1 < (q + 1) * w) as Hq.
  { pose proof (Z.div_mod (size - 1) w ltac:(lia)) as Hdiv.
    pose proof (Z.mod_pos_bound (size - 1) w ltac:(lia)) as Hmod.
    fold q in Hdiv. lia. }
  apply list_lookup_fmap_Some in Hi as (j & Heq & Hj).
  apply lookup_seq in Hj as [-> Hlt]. simpl in Heq.
  injection Heq as -> ->.
  split; [done|]. split; [done|].
  assert (Z.of_nat i ≤ q) by lia.
  split; [nia|]. split; [intros Hlast; nia|intros Hlast; nia].
Qed.

Lemma get_segment_ranges_witness :
  ∃ segs,
    get_segment 10 4 = Ok segs
    ∧ 1 ≤ 10 `div` Z.min 4 10
    ∧ ∀ (i : nat) s e,
        segs !! i = Some (s, e) →
        s = Z.of_nat i * (10 `div` Z.min 4 10)
        ∧ e = Z.min (s + 10 `div` Z.min 4 10 - 1) (10 - 1)
        ∧ 1 ≤ e - s + 1 ≤ 10 `div` Z.min 4 10
        ∧ ((S i < length segs)%nat → e - s + 1 = 10 `div` Z.min 4 10)
        ∧ (S i = length segs → e = 10 - 1).
Proof.
  eexists. split; [reflexivity|].
  apply (get_segment_ranges 10 4); [lia|lia|reflexivity].
Defined.

(** X4: [get_segment] returns ranges exactly for a positive size and a
    count of at least one.  A size of zero or less raises [ValueError]
    whatever the count; for a positive size, a count of zero raises
    [ZeroDivisionError] and a negative one [IndexError]. *)
Theorem get_segment_errors size n :
  (size ≤ 0 → get_segment size n = Raise ValueError)
  ∧ (0 < size → n = 0 → get_segment size n = Raise ZeroDivisionError)
  ∧ (0 < size → n < 0 → get_segment size n = Raise IndexError)
  ∧ ((∃ segs, get_segment size n = Ok segs) ↔ 0 < size ∧ 1 ≤ n).
Proof.
  assert (size ≤ 0 → get_segment size n = Raise ValueError) as Hv.
  { intros Hs. unfold get_segment. destruct (size <=? 0) eqn:E; [done|lia]. }
  assert (0 < size → n = 0 → get_segment size n = Raise ZeroDivisionError) as Hz.
  { intros Hs ->. unfold get_segment. destruct (size <=? 0) eqn:E; [lia|].
    replace (Z.min 0 size) with 0 by lia. done. }
  assert (0 < size → n < 0 → get_segment size n = Raise IndexError) as Hi.
  { intros Hs Hneg. unfold get_segment. destruct (size <=? 0) eqn:E; [lia|].
    clear E. replace (Z.min n size) with n by lia.
    rewrite Z.ltb_irrefl. unfold Py.floordiv.
    destruct (n =? 0) eqn:E; [lia|]. clear E. cbn [mbind res_bind].
    assert (size `div` n < 0) as Hw.
    { pose proof (Z.div_mod size n ltac:(lia)) as Hdiv.
      pose proof (Z.mod_neg_bound size n ltac:(lia)) as Hmod. nia. }
    unfold Py.range, Py.range_len.
    destruct (size `div` n =? 0) eqn:E; [lia|]. clear E.
    destruct (0 <? size `div` n) eqn:E; [lia|]. clear E.
    destruct (size `div` n <? 0) eqn:E; [|lia]. clear E.
    destruct (size <? 0) eqn:E; [lia|]. done. }
  split; [done|]. split; [done|]. split; [done|]. split.
  - intros [segs Hget].
    destruct (decide (size ≤ 0)) as [Hs|Hs]; [by rewrite Hv in Hget|].
    destruct (decide (n = 0)) as [Hn|Hn]; [by rewrite Hz in Hget by lia|].
    destruct (decide (n < 0)) as [Hn'|Hn']; [by rewrite Hi in Hget by lia|].
    lia.
  - intros [Hs Hn]. rewrite get_segment_eq by done. by eexists.
Qed.

(** X5: when the count asked for is at least the size, every byte gets a
    range of its own: the ranges are [[0, 0], [1, 1], ..., [size - 1,
    size - 1]]. *)
Theorem get_segment_small_file size n :
  0 < size → size ≤ n →
  get_segment size n
  = Ok ((λ i : nat, (Z.of_nat i, Z.of_nat i)) <$> seq 0 (Z.to_nat size)).
Proof.
  intros Hsize Hn. rewrite get_segment_eq by lia.
  replace (Z.min n size) with size by lia.
  rewrite Z.div_same by lia. rewrite Z.div_1_r.
  replace (size - 1 + 1) with size by lia. f_equal.
  apply list_fmap_ext. intros i j Hj.
  apply lookup_seq in Hj as [-> Hlt]. simpl. f_equal; lia.
Qed.

Lemma get_segment_small_file_witness :
  get_segment 3 64 = Ok ((λ i : nat, (Z.of_nat i, Z.of_nat i)) <$> seq 0 (Z.to_nat 3)).
Proof. apply (get_segment_small_file 3 64); lia. Defined.

End planner_extras.

(** * Further properties of the segment fetcher *)

Section fetcher_extras.
Import DownloadSegment.

Lemma try_attempt_accepted f start_byte a :
  0 ≤ start_byte →
  try_attempt (Some f) start_byte a
  = match a with
    | Response status body =>
        if accepted a then Ok (write_at f (Z.to_nat start_byte) body)
        else Raise DownloadError
    | Timeout => Raise TimeoutError
    | NetworkError => Raise ClientError
    end.
Proof.
  intros H0. destruct a as [| |status body]; [done..|]. simpl.
  case_bool_decide; simpl; [|done].
  destruct (start_byte <? 0) eqn:E; [lia|done].
Qed.

Lemma try_attempt_rejected file start_byte a :
  file = None ∨ start_byte < 0 ∨ accepted a = false →
  ∃ x, try_attempt file start_byte a = Raise x.
Proof.
  intros Hbad. destruct a as [| |status body]; simpl; [by eexists..|].
  case_bool_decide as Hst; simpl; [|by eexists].
  destruct file as [f|]; [|by eexists].
  destruct (start_byte <? 0) eqn:E; [by eexists|].
  destruct Hbad as [?|[?|Hacc]]; [done|lia|].
  simpl in Hacc. by rewrite bool_decide_true in Hacc.
Qed.

(** No attempt accepted: the loop runs out and raises [DownloadError]
    on the file as it was. *)
Lemma attempts_exhausted remaining : ∀ attempt file start_byte server,
  (∀ n, (attempt ≤ n < attempt + remaining)%nat →
        file = None ∨ start_byte < 0 ∨ accepted (server n) = false) →
  attempts remaining attempt file start_byte server = (file, Raise DownloadError).
Proof.
  induction remaining as [|remaining IH]; intros attempt file start_byte server Hno;
    [done|].
  simpl. destruct (try_attempt_rejected file start_byte (server attempt)) as [x ->].
  { apply Hno. lia. }
  apply IH. intros n Hn. apply Hno. lia.
Qed.

(** The first accepted answer ends the loop. *)
Lemma attempts_first_accepted remaining : ∀ attempt f start_byte server n status body,
  0 ≤ start_byte →
  (attempt ≤ n < attempt + remaining)%nat →
  server n = Response status body → accepted (server n) = true →
  (∀ m, (attempt ≤ m < n)%nat → accepted (server m) = false) →
  attempts remaining attempt (Some f) start_byte server
  = (Some (write_at f (Z.to_nat start_byte) body), Ok true).
Proof.
  induction remaining as [|remaining IH];
    intros attempt f start_byte server n status body H0 Hn Hresp Hacc Hfirst; [lia|].
  simpl. destruct (decide (n = attempt)) as [->|Hne].
  - rewrite try_attempt_accepted by done. rewrite Hresp in *. by rewrite Hacc.
  - destruct (try_attempt_rejected (Some f) start_byte (server attempt)) as [x ->].
    { right. right. apply Hfirst. lia. }
    eapply IH; [done| |done|done|]; [lia|]. intros m Hm. apply Hfirst. lia.
Qed.

(** Below a bound, either no answer is accepted or there is a first one
    that is. *)
Lemma first_accepted (server : nat → http_result) (bound : nat) :
  (∀ n, (n < bound)%nat → accepted (server n) = false)
  ∨ ∃ n, (n < bound)%nat ∧ accepted (server n) = true
         ∧ ∀ m, (m < n)%nat → accepted (server m) = false.
Proof.
  induction bound as [|bound IH]; [left; lia|].
  destruct IH as [Hnone | (n & Hn & Hacc & Hfirst)].
  - destruct (accepted (server bound)) eqn:E.
    + right. exists bound. split; [lia|]. split; [done|]. intros m Hm. by apply Hnone.
    + left. intros n Hn. destruct (decide (n = bound)) as [->|]; [done|].
      apply Hnone. lia.
  - right. exists n. split; [lia|]. done.
Qed.

Lemma accepted_Response a :
  accepted a = true → ∃ status body, a = Response status body.
Proof. destruct a; [done..|]. by eexists _, _. Qed.

Lemma write_at_length (f : list byte) pos data :
  (pos ≤ length f)%nat →
  length (write_at f pos data) = (length f `max` (pos + length data))%nat.
Proof.
  intros Hpos. unfold write_at. destruct data as [|b data]; [simpl; lia|].
  set (dat := b :: data).
  rewrite !length_app, length_take, length_replicate, length_drop. lia.
Qed.

Lemma write_at_outside (f : list byte) pos data (k : nat) :
  (pos ≤ length f)%nat → ¬ (pos ≤ k < pos + length data)%nat →
  write_at f pos data !! k = f !! k.
Proof.
  intros Hpos Hout. unfold write_at. destruct data as [|b data]; [done|].
  set (dat := b :: data) in *.
  replace (pos - length f)%nat with 0%nat by lia. simpl replicate.
  rewrite app_nil_l.
  destruct (decide (k < pos)%nat) as [Hlt|Hge].
  - rewrite lookup_app_l by (rewrite length_take; lia).
    by apply lookup_take_lt.
  - rewrite lookup_app_r by (rewrite length_take; lia).
    rewrite length_take, Nat.min_l by lia.
    rewrite lookup_app_r by lia.
    rewrite lookup_drop. f_equal. lia.
Qed.

Lemma write_at_lookup (f : list byte) pos data (k : nat) :
  (pos ≤ length f)%nat →
  write_at f pos data !! k
  = if decide (pos ≤ k < pos + length data)%nat then data !! (k - pos)%nat
    else f !! k.
Proof.
  intros Hpos. case_decide as Hk.
  - replace k with (pos + (k - pos))%nat at 1 by lia.
    apply write_at_data; [done|lia].
  - by apply write_at_outside.
Qed.

(** Every call either runs out of attempts, leaving the file as it was,
    or writes the body of the first accepted answer. *)
Lemma download_segment_cases retry_times file byte_range server resume_offset :
  let s := request_start byte_range resume_offset in
  ((file = None ∨ s < 0
    ∨ ∀ n, (n < retry_times)%nat → accepted (server n) = false)
   ∧ download_segment_async retry_times file byte_range server resume_offset
     = (file, Raise DownloadError))
  ∨ ∃ f (n : nat) status body,
      file = Some f ∧ 0 ≤ s ∧ (n < retry_times)%nat
      ∧ server n = Response status body ∧ accepted (server n) = true
      ∧ (∀ m, (m < n)%nat → accepted (server m) = false)
      ∧ download_segment_async retry_times file byte_range server resume_offset
        = (Some (write_at f (Z.to_nat s) body), Ok true).
Proof.
  intros s. unfold download_segment_async. fold s.
  destruct file as [f|].
  2:{ left. split; [by left|]. apply attempts_exhausted. intros; by left. }
  destruct (decide (s < 0)) as [Hneg|Hpos].
  { left. split; [by right; left|]. apply attempts_exhausted.
    intros; by right; left. }
  destruct (first_accepted server retry_times)
    as [Hnone | (n & Hn & Hacc & Hfirst)].
  - left. split; [by right; right|]. apply attempts_exhausted.
    intros n Hn. right. right. apply Hnone. lia.
  - right. destruct (accepted_Response _ Hacc) as (status & body & Hresp).
    exists f, n, status, body. split; [done|]. split; [lia|].
    split; [done|]. split; [done|]. split; [done|]. split; [done|].
    apply (attempts_first_accepted retry_times 0 f s server n status body);
      [lia|lia|done|done|]. intros m Hm. apply Hfirst. lia.
Qed.

(** X6: a call to [download_segment_async] returns [True] exactly when
    the output file exists, the request start is not negative, and one
    of the first [retry_times] answers has status 200 or 206; timeouts,
    network errors and other statuses before it only cost attempts. *)
Theorem download_segment_succeeds_iff
    retry_times file byte_range server resume_offset :
  (download_segment_async retry_times file byte_range server resume_offset).2
  = Ok true
  ↔ is_Some file
    ∧ 0 ≤ request_start byte_range resume_offset
    ∧ ∃ n, (n < retry_times)%nat ∧ accepted (server n) = true.
Proof.
  destruct (download_segment_cases retry_times file byte_range server resume_offset)
    as [[Hbad ->] | (f & n & status & body & -> & H0 & Hn & _ & Hacc & _ & ->)].
  - simpl. split; [done|]. intros ([f ->] & H0 & n & Hn & Hacc).
    destruct Hbad as [?|[?|Hnone]]; [done|lia|].
    rewrite Hnone in Hacc by done. done.
  - simpl. split; [|done]. intros _. split; [by eexists|]. split; [done|].
    by exists n.
Qed.

(** X7: the answers are tried in order and the first one with status 200
    or 206 decides: its body is written at the request start and the
    call returns [True], whatever the earlier attempts raised and
    whatever later attempts would have answered. *)
Theorem download_segment_first_accepted
    retry_times f byte_range server resume_offset (n : nat) status body :
  0 ≤ request_start byte_range resume_offset →
  (n < retry_times)%nat →
  server n = Response status body →
  status = 200 ∨ status = 206 →
  (∀ m, (m < n)%nat → accepted (server m) = false) →
  download_segment_async retry_times (Some f) byte_range server resume_offset
  = (Some (write_at f (Z.to_nat (request_start byte_range resume_offset)) body),
     Ok true).
Proof.
  intros H0 Hn Hresp Hst Hfirst. unfold download_segment_async.
  apply (attempts_first_accepted retry_times 0 f _ server n status body);
    [done|lia|done| |].
  - rewrite Hresp. simpl. apply bool_decide_eq_true.
    destruct Hst as [-> | ->]; set_solver.
  - intros m Hm. apply Hfirst. lia.
Qed.

Lemma download_segment_first_accepted_witness :
  download_segment_async 32 (Some [x00; x00; x00; x00]) (1, 2)
    (λ n, match n with
          | 0%nat => Response 416 []
          | 1%nat => Timeout
          | _ => Response 206 [x0a; x0b]
          end) 0
  = (Some (write_at [x00; x00; x00; x00] (Z.to_nat (request_start (1, 2) 0))
             [x0a; x0b]), Ok true).
Proof.
  apply (download_segment_first_accepted 32 [x00; x00; x00; x00] (1, 2) _ 0
           2 206 [x0a; x0b]).
  - simpl. lia.
  - lia.
  - reflexivity.
  - right. reflexivity.
  - intros [|[|m]] Hm; [reflexivity|reflexivity|lia].
Defined.

(** X8: a call that does not return [True] raises [DownloadError],
    whatever its attempts raised, and leaves the output file exactly as
    it was; a missing output file is not created. *)
Theorem download_segment_failure_clean
    retry_times file byte_range server resume_offset :
  (download_segment_async retry_times file byte_range server resume_offset).2
  ≠ Ok true →
  download_segment_async retry_times file byte_range server resume_offset
  = (file, Raise DownloadError).
Proof.
  intros Hfail.
  destruct (download_segment_cases retry_times file byte_range server resume_offset)
    as [[_ Heq] | (f & n & status & body & _ & _ & _ & _ & _ & _ & Heq)].
  - done.
  - rewrite Heq in Hfail. simpl in Hfail. done.
Qed.

Lemma download_segment_failure_clean_witness :
  download_segment_async 3 None (0, 9) (λ _, Response 206 [x01]) 0
  = (None, Raise DownloadError).
Proof.
  apply (download_segment_failure_clean 3 None (0, 9) (λ _, Response 206 [x01]) 0).
  simpl. discriminate.
Defined.

(** X9: after a call that returned [True] on a file that reaches the
    request start [s], reading [length body] bytes at [s] gives back the
    body of the accepted answer, and the file is as long as before
    unless the body ran past its end. *)
Theorem fetched_bytes_read_back
    retry_times f byte_range server resume_offset f' :
  let s := request_start byte_range resume_offset in
  0 ≤ s ≤ Z.of_nat (length f) →
  download_segment_async retry_times (Some f) byte_range server resume_offset
  = (Some f', Ok true) →
  ∃ (n : nat) status body,
    (n < retry_times)%nat
    ∧ server n = Response status body
    ∧ take (length body) (drop (Z.to_nat s) f') = body
    ∧ length f' = (length f `max` (Z.to_nat s + length body))%nat.
Proof.
  intros s Hs Hcall.
  destruct (download_segment_cases retry_times (Some f) byte_range server
              resume_offset)
    as [[_ Heq] | (g & n & status & body & [= <-] & _ & Hn & Hresp & _ & _ & Heq)].
  { rewrite Heq in Hcall. done. }
  rewrite Heq in Hcall. injection Hcall as <-. fold s.
  exists n, status, body. split; [done|]. split; [done|]. split.
  - apply list_eq. intros j. rewrite lookup_take, lookup_drop.
    case_decide as Hj.
    + apply write_at_data; [lia|done].
    + symmetry. apply lookup_ge_None. lia.
  - apply write_at_length. lia.
Qed.

Lemma fetched_bytes_read_back_witness :
  ∃ (n : nat) status body,
    (n < 2)%nat
    ∧ (λ _ : nat, Response 206 [x0a; x0b]) n = Response status body
    ∧ take (length body)
        (drop (Z.to_nat (request_start (2, 3) 0)) [x00; x00; x0a; x0b; x00])
      = body
    ∧ length [x00; x00; x0a; x0b; x00]
      = Nat.max (length [x00; x00; x00; x00; x00])
          (Z.to_nat (request_start (2, 3) 0) + length body).
Proof.
  apply (fetched_bytes_read_back 2 [x00; x00; x00; x00; x00] (2, 3)
           (λ _ : nat, Response 206 [x0a; x0b]) 0 [x00; x00; x0a; x0b; x00]).
  - simpl. lia.
  - reflexivity.
Defined.

(** X10: two positioned writes into disjoint regions inside the file
    give the same file in either order. *)
Theorem disjoint_writes_commute (f : list byte) p1 d1 p2 d2 :
  (p1 + length d1 ≤ p2)%nat → (p2 + length d2 ≤ length f)%nat →
  write_at (write_at f p1 d1) p2 d2 = write_at (write_at f p2 d2) p1 d1.
Proof.
  intros H1 H2.
  assert (length (write_at f p1 d1) = length f) as Hl1
    by (rewrite write_at_length; lia).
  assert (length (write_at f p2 d2) = length f) as Hl2
    by (rewrite write_at_length; lia).
  apply list_eq. intros k.
  rewrite !write_at_lookup by lia.
  repeat case_decide; try done; lia.
Qed.

Lemma disjoint_writes_commute_witness :
  write_at (write_at [x00; x00; x00; x00] 0 [x01; x02]) 2 [x03; x04]
  = write_at (write_at [x00; x00; x00; x00] 2 [x03; x04]) 0 [x01; x02].
Proof.
  apply (disjoint_writes_commute [x00; x00; x00; x00] 0 [x01; x02] 2 [x03; x04]).
  - simpl. lia.
  - simpl. lia.
Defined.

(** X11: the synchronous wrapper [fetch] never resumes and never raises:
    it returns [True] after writing the first accepted body at
    [range.start], and [False], with the file untouched, when the file
    is missing, the start is negative or no attempt is accepted. *)
Theorem fetch_result retry_times file start_byte end_byte server :
  let '(file', ok) := fetch retry_times file (start_byte, end_byte) server in
  (ok = true
   ↔ is_Some file ∧ 0 ≤ start_byte
     ∧ ∃ n, (n < retry_times)%nat ∧ accepted (server n) = true)
  ∧ (ok = false → file' = file)
  ∧ (ok = true →
     ∃ f (n : nat) status body,
       file = Some f ∧ (n < retry_times)%nat
       ∧ server n = Response status body
       ∧ (∀ m, (m < n)%nat → accepted (server m) = false)
       ∧ file' = Some (write_at f (Z.to_nat start_byte) body)).
Proof.
  unfold fetch.
  assert (request_start (start_byte, end_byte) 0 = start_byte) as Hs by done.
  destruct (download_segment_cases retry_times file (start_byte, end_byte) server 0)
    as [[Hbad ->] | (f & n & status & body & -> & H0 & Hn & Hresp & Hacc & Hfirst & ->)];
    rewrite Hs in *.
  - split; [|split]; [|done|done]. split; [done|].
    intros ([f ->] & H0 & n & Hn & Hacc).
    destruct Hbad as [?|[?|Hnone]]; [done|lia|].
    rewrite Hnone in Hacc by done. done.
  - split; [|split]; [|done|].
    + split; [|done]. intros _. split; [by eexists|]. split; [done|]. by exists n.
    + intros _. by exists f, n, status, body.
Qed.

End fetcher_extras.


(** * The coordinator *)

Section json_values.
Import Json DownloadManager.

Lemma Z2Qc_inj a b : Z2Qc a = Z2Qc b → a = b.
Proof.
  intros H. apply (f_equal Qcanon.this) in H. simpl in H.
  apply Qred_eq_iff in H. unfold Qeq in H. simpl in H. lia.
Qed.

Lemma int_key_inj a b : int_key a = int_key b → a = b.
Proof.
  intros H. apply Z2Qc_inj.
  exact (f_equal (λ k, match k with HNum q => q | _ => Z2Qc a end) H).
Qed.

Lemma segment_key_inj i j : segment_key i = segment_key j → i = j.
Proof. unfold segment_key. intros H%int_key_inj. lia. Qed.

Lemma elem_of_segment_keys (i : nat) (ids : list Z) :
  segment_key i ∈ (list_to_set (int_key <$> ids) : gset hashable)
  ↔ Z.of_nat i ∈ ids.
Proof.
  rewrite elem_of_list_to_set, list_elem_of_fmap. split.
  - intros (z & Hz%int_key_inj & Hin). by subst z.
  - intros Hin. by exists (Z.of_nat i).
Qed.

(** What [json.dumps] writes for a member is read back as that
    member. *)
Lemma hash_key_of_key k : hash_key (of_key k) = Ok k.
Proof.
  destruct k as [|q| | |]; try done. unfold of_key.
  destruct (Qden q =? 1)%positive eqn:E; [|done].
  simpl. unfold int_key. do 2 f_equal.
  apply Pos.eqb_eq in E. apply Qc_is_canon. unfold Z2Qc. simpl.
  rewrite Qred_correct. unfold Qeq. simpl. rewrite E. lia.
Qed.

Lemma hash_keys_of_keys ks : hash_keys (of_key <$> ks) = Ok ks.
Proof.
  induction ks as [|k ks IH]; [done|].
  rewrite fmap_cons. cbn [hash_keys]. rewrite hash_key_of_key.
  cbn [mbind res_bind]. by rewrite IH.
Qed.

Lemma hash_keys_ints ids : hash_keys (JInt <$> ids) = Ok (int_key <$> ids).
Proof.
  induction ids as [|z ids IH]; [done|].
  rewrite !fmap_cons. cbn [hash_keys hash_key mbind res_bind]. by rewrite IH.
Qed.

Lemma py_set_ints ids : py_set (JArr (JInt <$> ids)) = Ok (list_to_set (int_key <$> ids)).
Proof. cbn [py_set]. by rewrite hash_keys_ints. Qed.

Lemma py_set_elements (c : gset hashable) :
  py_set (JArr (of_key <$> elements c)) = Ok c.
Proof.
  cbn [py_set]. rewrite hash_keys_of_keys. cbn [mbind res_bind]. f_equal.
  apply list_to_set_elements_L.
Qed.

Lemma eq_int_JInt z total_size : eq_int (JInt z) total_size = true ↔ z = total_size.
Proof.
  unfold eq_int. simpl. rewrite bool_decide_eq_true. split.
  - apply int_key_inj.
  - by intros ->.
Qed.

Lemma entries_del_key key progress :
  entries (del_key key progress) = delete key (entries progress).
Proof. destruct progress; simpl; try done; by rewrite delete_empty. Qed.

Lemma resume_offset_entry members (i : nat) :
  resume_offset (JObj members) i
  = py_int (default (JInt 0) (members !! pretty i)).
Proof. done. Qed.

Lemma resume_offset_not_object progress (i : nat) :
  (∀ members, progress ≠ JObj members) →
  resume_offset progress i = Raise AttributeError.
Proof. intros Hp. destruct progress; try done. by destruct (Hp members). Qed.

Lemma state_json_uri uri total_size st members :
  state_json uri total_size st = JObj members →
  members !! "uri"%string = Some (JStr uri)
  ∧ members !! "total_size"%string = Some (JInt total_size)
  ∧ members !! "completed_segments"%string
    = Some (JArr (of_key <$> elements (completed_segments st)))
  ∧ members !! "segment_progress"%string = Some (segment_progress st).
Proof. intros [= <-]. split_and!; by simplify_map_eq. Qed.

(** A checkpoint is a state that the resume check of the same download
    takes back as it was saved. *)
Lemma load_state_json uri total_size st :
  load_state uri total_size (Ok (state_json uri total_size st)) = Ok (Some st).
Proof.
  unfold load_state.
  destruct (state_json_uri uri total_size st _ eq_refl) as (Hu & Ht & Hc & Hp).
  change (Ok (state_json uri total_size st) ≫= ?k)
    with (k (state_json uri total_size st)).
  unfold state_json at 1. cbn [mbind res_bind].
  unfold uri_matches, size_matches. rewrite Hu, Ht.
  rewrite String.eqb_refl. rewrite (proj2 (eq_int_JInt _ _) eq_refl).
  cbn [andb]. rewrite Hc, Hp. cbn [default from_option id].
  rewrite py_set_elements. by destruct st.
Qed.

End json_values.

Section coordinator.
Import DownloadSegment Json DownloadManager.

Lemma save_state_Ok w uri total_size st d :
  (_save_state w uri total_size st d).2 = Ok ().
Proof. by destruct w. Qed.

Lemma save_state_output w uri total_size st d :
  output_file (_save_state w uri total_size st d).1 = output_file d.
Proof. by destruct w. Qed.

Lemma attempts_keep_file remaining : ∀ attempt file start_byte server,
  is_Some file → is_Some (attempts remaining attempt file start_byte server).1.
Proof.
  induction remaining as [|remaining IH]; intros attempt file start_byte server Hf.
  - done.
  - simpl. destruct (try_attempt file start_byte (server attempt)); [by eexists|].
    by apply IH.
Qed.

Section run.
Context (e : env) (uri : string) (total_size : Z) (tasks : list task).

Lemma on_event_updater s ev :
  updater s = Ok () → updater (on_event e uri total_size tasks s ev) = Ok ().
Proof.
  intros Hup. destruct ev as [i|w]; simpl.
  - destruct (find_task i tasks) as [t|]; [|done].
    case_bool_decide; [done|].
    by destruct (download_segment_async _ _ _ _ _).
  - rewrite Hup.
    pose proof (save_state_Ok w uri total_size (mem s) (disk s)) as Hok.
    by destruct (_save_state _ _ _ _ _).
Qed.

Lemma on_event_output s ev :
  is_Some (output_file (disk s)) →
  is_Some (output_file (disk (on_event e uri total_size tasks s ev))).
Proof.
  intros Hout. destruct ev as [i|w]; simpl.
  - destruct (find_task i tasks) as [t|]; [|done].
    case_bool_decide; [done|].
    pose proof (attempts_keep_file (retry_times e) 0 (output_file (disk s))
                  (request_start (task_range t) (task_offset t))
                  (server e i) Hout) as Hkeep.
    unfold download_segment_async.
    by destruct (attempts _ _ _ _ _).
  - destruct (updater s); [|done].
    pose proof (save_state_output w uri total_size (mem s) (disk s)) as Hsame.
    destruct (_save_state _ _ _ _ _). simpl in *. by rewrite Hsame.
Qed.

(** No event removes the state file. *)
Lemma on_event_state_file s ev :
  is_Some (state_file (disk s)) →
  is_Some (state_file (disk (on_event e uri total_size tasks s ev))).
Proof.
  intros Hsf. destruct ev as [i|w]; simpl.
  - destruct (find_task i tasks) as [t|]; [|done].
    case_bool_decide; [done|].
    by destruct (download_segment_async _ _ _ _ _).
  - destruct (updater s); [|done]. by destruct w.
Qed.

Lemma callback_disjoint i result st :
  disjoint_state st → disjoint_state (callback i result st).
Proof.
  intros Hdis. destruct result as [[|]|]; [|done..].
  intros j Hj. simpl in *. rewrite entries_del_key.
  destruct (decide (j = i)) as [->|Hne].
  - apply lookup_delete_eq.
  - apply lookup_delete_None. right. apply Hdis.
    apply elem_of_union in Hj as [Hj|Hj]; [|done].
    apply elem_of_singleton in Hj. by apply segment_key_inj in Hj.
Qed.

Lemma on_event_disjoint s ev :
  disjoint_state (mem s) →
  disjoint_state (mem (on_event e uri total_size tasks s ev)).
Proof.
  intros Hdis. destruct ev as [i|w]; simpl.
  - destruct (find_task i tasks) as [t|]; [|done].
    case_bool_decide; [done|].
    destruct (download_segment_async _ _ _ _ _). simpl.
    by apply callback_disjoint.
  - destruct (updater s); [|done]. by destruct (_save_state _ _ _ _ _).
Qed.

Lemma run_events_invariant (P : run_state → Prop) trace :
  (∀ s ev, P s → P (on_event e uri total_size tasks s ev)) →
  ∀ s, P s → P (run_events e uri total_size tasks s trace).
Proof.
  intros Hstep. induction trace as [|ev trace IH]; intros s Hs; [done|].
  simpl. apply IH, Hstep, Hs.
Qed.

Lemma await_tasks_invariant (P : run_state → Prop) trace :
  (∀ s ev, P s → P (on_event e uri total_size tasks s ev)) →
  ∀ s, P s → P (await_tasks e uri total_size tasks s trace).
Proof.
  intros Hstep s Hs. unfold await_tasks.
  pose proof (run_events_invariant P trace Hstep s Hs) as Hrun.
  by destruct tasks.
Qed.

Lemma await_tasks_updater s trace :
  updater s = Ok () → updater (await_tasks e uri total_size tasks s trace) = Ok ().
Proof.
  apply (await_tasks_invariant (λ s, updater s = Ok ())).
  intros. by apply on_event_updater.
Qed.

Lemma await_tasks_output s trace :
  is_Some (output_file (disk s)) →
  is_Some (output_file (disk (await_tasks e uri total_size tasks s trace))).
Proof.
  apply (await_tasks_invariant (λ s, is_Some (output_file (disk s)))).
  intros. by apply on_event_output.
Qed.

Lemma await_tasks_state_file s trace :
  is_Some (state_file (disk s)) →
  is_Some (state_file (disk (await_tasks e uri total_size tasks s trace))).
Proof.
  apply (await_tasks_invariant (λ s, is_Some (state_file (disk s)))).
  intros. by apply on_event_state_file.
Qed.

End run.

(** What [_download_without_progress] comes to once its tasks are
    created: it does not raise, and its result is the final save and
    [finish] applied to the run. *)
Lemma download_without_progress_run
    e trace final_write uri segments total_size d st tasks :
  spawn segments st = Ok tasks →
  let s := await_tasks e uri total_size tasks
             {| disk := d; mem := st; settled := ∅; updater := Ok () |} trace in
  _download_without_progress e trace final_write uri segments total_size d st
  = (finish (length segments) (mem s)
       (_save_state final_write uri total_size (mem s) (disk s)).1,
     mem s, Ok ()).
Proof.
  intros Hspawn s. unfold _download_without_progress. rewrite Hspawn. fold s.
  assert (updater s = Ok ()) as -> by (by apply await_tasks_updater).
  pose proof (save_state_Ok final_write uri total_size (mem s) (disk s)) as Hok.
  destruct (_save_state _ _ _ _ _) as [d' r]. simpl in *. by rewrite Hok.
Qed.

Lemma download_without_progress_raise
    e trace final_write uri segments total_size d st x :
  spawn segments st = Raise x →
  _download_without_progress e trace final_write uri segments total_size d st
  = (d, st, Raise x).
Proof. intros Hspawn. unfold _download_without_progress. by rewrite Hspawn. Qed.

Lemma create_file_ok o total_size d :
  mkdir_ok o = true → open_ok o = true → sparse_ok o = true → 0 < total_size →
  create_file o total_size d
  = (match output_file d with
     | Some _ => d
     | None => {| output_file := Some (zeros total_size);
                  state_file := state_file d |}
     end, Ok ()).
Proof.
  intros Hmk Hop Hsp Hpos. unfold create_file. rewrite Hmk, Hop, Hsp. simpl.
  destruct (output_file d); [done|].
  destruct (0 <=? total_size - 1) eqn:E; [done|lia].
Qed.

Lemma length_zeros n : 0 ≤ n → Z.of_nat (length (zeros n)) = n.
Proof. intros Hn. unfold zeros. rewrite length_replicate. lia. Qed.

Lemma finish_output total_segments st d :
  output_file (finish total_segments st d) = output_file d.
Proof. unfold finish. by case_bool_decide. Qed.

(** Which tasks are created: one for every segment whose index is not
    in the completed set, with the offset that [int] makes of the entry
    stored under [str(i)], or 0. *)
Lemma spawn_from_spec segments st : ∀ i tasks,
  spawn_from i segments st = Ok tasks →
  ∀ t,
    t ∈ tasks
    ↔ ∃ (k : nat) byte_range offset,
        segments !! k = Some byte_range
        ∧ (segment_key (i + k) ∉ completed_segments st)
        ∧ resume_offset (segment_progress st) (i + k) = Ok offset
        ∧ t = {| task_id := i + k; task_range := byte_range;
                 task_offset := offset |}.
Proof.
  induction segments as [|r rest IH]; intros i tasks Hspawn t; simpl in Hspawn.
  - injection Hspawn as <-. split; [by intros ?%elem_of_nil|].
    by intros (k & ? & ? & ? & _).
  - assert (∀ tasks',
              spawn_from (S i) rest st = Ok tasks' →
              (t ∈ tasks'
               ↔ ∃ (k : nat) byte_range offset,
                   (r :: rest) !! S k = Some byte_range
                   ∧ (segment_key (i + S k) ∉ completed_segments st)
                   ∧ resume_offset (segment_progress st) (i + S k) = Ok offset
                   ∧ t = {| task_id := i + S k; task_range := byte_range;
                            task_offset := offset |})) as Hrest.
    { intros tasks' Htasks'. rewrite (IH (S i) tasks' Htasks' t).
      split; intros (k & br & off & Hk & Hnot & Hoff & ->); exists k, br, off;
        replace (i + S k)%nat with (S i + k)%nat in * by lia; done. }
    case_bool_decide as Hin.
    + rewrite (Hrest tasks Hspawn). split.
      * intros (k & br & off & ?). by exists (S k), br, off.
      * intros ([|k] & br & off & Hk & Hnot & Hoff & ->).
        -- rewrite Nat.add_0_r in Hnot. done.
        -- by exists k, br, off.
    + destruct (resume_offset (segment_progress st) i) as [offset|x] eqn:Hoff;
        [|done]. simpl in Hspawn.
      destruct (spawn_from (S i) rest st) as [tasks'|x] eqn:Hrec; [|done].
      simpl in Hspawn. injection Hspawn as <-.
      rewrite elem_of_cons, (Hrest tasks' eq_refl). split.
      * intros [-> | (k & br & off & ?)].
        -- exists 0%nat, r, offset. rewrite Nat.add_0_r. done.
        -- by exists (S k), br, off.
      * intros ([|k] & br & off & Hk & Hnot & Hoff' & ->).
        -- left. rewrite Nat.add_0_r in *. simpl in Hk. injection Hk as <-.
           rewrite Hoff in Hoff'. by injection Hoff' as <-.
        -- right. by exists k, br, off.
Qed.

Lemma spawn_spec segments st tasks :
  spawn segments st = Ok tasks →
  ∀ t,
    t ∈ tasks
    ↔ ∃ (i : nat) byte_range offset,
        segments !! i = Some byte_range
        ∧ (segment_key i ∉ completed_segments st)
        ∧ resume_offset (segment_progress st) i = Ok offset
        ∧ t = {| task_id := i; task_range := byte_range; task_offset := offset |}.
Proof. intros Hspawn t. by rewrite (spawn_from_spec segments st 0 tasks Hspawn t). Qed.

(** The loop raises what the first segment that is not completed and
    whose entry cannot be converted raises. *)
Lemma spawn_from_raise segments st : ∀ i x,
  spawn_from i segments st = Raise x →
  ∃ (k : nat) byte_range,
    segments !! k = Some byte_range
    ∧ (segment_key (i + k) ∉ completed_segments st)
    ∧ resume_offset (segment_progress st) (i + k) = Raise x.
Proof.
  induction segments as [|r rest IH]; intros i x Hspawn; simpl in Hspawn; [done|].
  assert (spawn_from (S i) rest st = Raise x →
          ∃ (k : nat) byte_range,
            (r :: rest) !! k = Some byte_range
            ∧ (segment_key (i + k) ∉ completed_segments st)
            ∧ resume_offset (segment_progress st) (i + k) = Raise x) as Hrest.
  { intros (k & br & Hk & Hnot & Hoff)%IH. exists (S k), br.
    replace (i + S k)%nat with (S i + k)%nat by lia. done. }
  case_bool_decide as Hin; [by apply Hrest|].
  destruct (resume_offset (segment_progress st) i) as [offset|y] eqn:Hoff.
  - simpl in Hspawn. destruct (spawn_from (S i) rest st) as [tasks'|y] eqn:Hrec;
      [done|]. simpl in Hspawn. injection Hspawn as <-. by apply Hrest.
  - simpl in Hspawn. injection Hspawn as <-. exists 0%nat, r.
    rewrite Nat.add_0_r. done.
Qed.

Lemma spawn_from_ok segments st : ∀ i,
  (∀ (k : nat) byte_range,
     segments !! k = Some byte_range →
     segment_key (i + k) ∉ completed_segments st →
     ∃ offset, resume_offset (segment_progress st) (i + k) = Ok offset) →
  ∃ tasks, spawn_from i segments st = Ok tasks.
Proof.
  intros i Hall. destruct (spawn_from i segments st) as [tasks|x] eqn:Hspawn;
    [by exists tasks|].
  apply spawn_from_raise in Hspawn as (k & br & Hk & Hnot & Hoff).
  destruct (Hall k br Hk Hnot) as [offset Hok]. congruence.
Qed.

Lemma spawn_fresh segments : ∃ tasks, spawn segments fresh = Ok tasks.
Proof. apply spawn_from_ok. intros k br _ _. by exists 0. Qed.

Lemma spawn_from_all_completed segments st : ∀ i0,
  (∀ k : nat, (k < length segments)%nat →
              segment_key (i0 + k) ∈ completed_segments st) →
  spawn_from i0 segments st = Ok [].
Proof.
  induction segments as [|r rest IH]; intros i0 Hall; [done|]. simpl.
  rewrite bool_decide_true.
  - apply IH. intros k Hk. replace (S i0 + k)%nat with (i0 + S k)%nat by lia.
    apply Hall. simpl. lia.
  - replace i0 with (i0 + 0)%nat by lia. apply Hall. simpl. lia.
Qed.

Lemma find_task_elem i tasks t :
  find_task i tasks = Some t → t ∈ tasks ∧ task_id t = i.
Proof.
  induction tasks as [|t0 tasks IH]; [done|]. simpl.
  case_bool_decide as Hid.
  - intros [= <-]. split; [apply elem_of_cons; by left|done].
  - intros [Hin Heq]%IH. split; [apply elem_of_cons; by right|done].
Qed.

(** A task exists only for a segment of the plan that is not completed,
    and carries that segment's range. *)
Lemma find_task_spawn i segments st tasks t :
  spawn segments st = Ok tasks →
  find_task i tasks = Some t →
  (i < length segments)%nat
  ∧ segments !! i = Some (task_range t)
  ∧ (segment_key i ∉ completed_segments st)
  ∧ resume_offset (segment_progress st) i = Ok (task_offset t).
Proof.
  intros Hspawn [Hin Hid]%find_task_elem.
  apply (spawn_spec _ _ _ Hspawn) in Hin as (k & r & off & Hk & Hnot & Hoff & ->).
  simpl in *. subst k.
  split; [by apply lookup_lt_Some in Hk|]. done.
Qed.

(** Every segment of the plan that is not completed has its task. *)
Lemma find_task_spawn_from segments st : ∀ i0 tasks (k : nat) r,
  spawn_from i0 segments st = Ok tasks →
  segments !! k = Some r →
  segment_key (i0 + k) ∉ completed_segments st →
  ∃ offset,
    resume_offset (segment_progress st) (i0 + k) = Ok offset
    ∧ find_task (i0 + k) tasks
      = Some {| task_id := i0 + k; task_range := r; task_offset := offset |}.
Proof.
  induction segments as [|r0 rest IH]; intros i0 tasks k r Hspawn Hk Hnot; [done|].
  simpl in Hspawn. destruct k as [|k]; simpl in Hk.
  - injection Hk as <-. rewrite Nat.add_0_r in *.
    rewrite bool_decide_false in Hspawn by done.
    destruct (resume_offset (segment_progress st) i0) as [offset|x]; [|done].
    simpl in Hspawn. destruct (spawn_from (S i0) rest st) as [tasks'|x]; [|done].
    simpl in Hspawn. injection Hspawn as <-. exists offset. split; [done|].
    simpl. by rewrite bool_decide_true.
  - replace (i0 + S k)%nat with (S i0 + k)%nat in * by lia.
    case_bool_decide; [exact (IH (S i0) tasks k r Hspawn Hk Hnot)|].
    destruct (resume_offset (segment_progress st) i0) as [offset0|x]; [|done].
    simpl in Hspawn. destruct (spawn_from (S i0) rest st) as [tasks'|x] eqn:Hrec;
      [|done].
    simpl in Hspawn. injection Hspawn as <-.
    destruct (IH (S i0) tasks' k r Hrec Hk Hnot) as (offset & Hoff & Hfind).
    exists offset. split; [done|]. simpl. by rewrite bool_decide_false by lia.
Qed.

Lemma find_task_spawn_Some i segments st tasks r :
  spawn segments st = Ok tasks →
  segments !! i = Some r → segment_key i ∉ completed_segments st →
  ∃ offset,
    resume_offset (segment_progress st) i = Ok offset
    ∧ find_task i tasks
      = Some {| task_id := i; task_range := r; task_offset := offset |}.
Proof. intros Hspawn Hi Hnot. by apply (find_task_spawn_from segments st 0 tasks i r). Qed.

End coordinator.

Section coordinator_runs.
Import DownloadSegment Json DownloadManager.

Lemma unlink_both_both o d f content :
  output_file d = Some f → state_file d = Some content →
  unlink_both o d
  = if unlink_output_ok o then
      if unlink_state_ok o
      then ({| output_file := None; state_file := None |}, Ok ())
      else ({| output_file := None; state_file := Some content |}, Raise OSError)
    else (d, Raise OSError).
Proof.
  intros Hf Hsf. unfold unlink_both, unlink_output. rewrite Hf.
  destruct (unlink_output_ok o); [|done].
  unfold unlink_state. cbn [state_file]. rewrite Hsf.
  by destruct (unlink_state_ok o).
Qed.

Lemma unlink_both_state o content :
  unlink_state_ok o = false →
  unlink_both o {| output_file := None; state_file := Some content |}
  = ({| output_file := None; state_file := Some content |}, Raise OSError).
Proof.
  intros Hst. unfold unlink_both, unlink_output, unlink_state. cbn.
  by rewrite Hst.
Qed.

Lemma start_fresh_both o d f content :
  output_file d = Some f → state_file d = Some content →
  start_fresh o d = discarded_files o d.
Proof.
  intros Hf Hsf. unfold start_fresh, discarded_files.
  rewrite (unlink_both_both o d f content Hf Hsf), Hsf.
  by destruct (unlink_output_ok o), (unlink_state_ok o).
Qed.

Lemma check_resume_discard o uri total_size d f content :
  output_file d = Some f → state_file d = Some content →
  (∀ st, load_state uri total_size content ≠ Ok (Some st)) →
  check_resume o true uri total_size d = discarded_files o d.
Proof.
  intros Hf Hsf Hload. unfold check_resume. rewrite Hf, Hsf.
  destruct (load_state uri total_size content) as [[st|]|x] eqn:Hl.
  - by destruct (Hload st).
  - rewrite (unlink_both_both o d f content Hf Hsf).
    unfold discarded_files. rewrite Hsf.
    destruct (unlink_output_ok o) eqn:Hout.
    + destruct (unlink_state_ok o) eqn:Hst; [done|].
      unfold start_fresh. by rewrite unlink_both_state.
    + unfold start_fresh. rewrite (unlink_both_both o d f content Hf Hsf).
      by rewrite Hout.
  - by apply start_fresh_both with f content.
Qed.

Lemma check_resume_resume o uri total_size d f content st :
  output_file d = Some f → state_file d = Some content →
  load_state uri total_size content = Ok (Some st) →
  check_resume o true uri total_size d = (d, Ok st).
Proof. intros Hf Hsf Hload. unfold check_resume. by rewrite Hf, Hsf, Hload. Qed.

Lemma check_resume_absent o resume uri total_size d :
  resume = false ∨ output_file d = None ∨ state_file d = None →
  check_resume o resume uri total_size d = (d, Ok fresh).
Proof.
  unfold check_resume. intros [-> | [-> | ->]].
  - by destruct (output_file d), (state_file d).
  - done.
  - by destruct (output_file d).
Qed.

(** The three ways of the resume check. *)
Lemma check_resume_cases o resume uri total_size d :
  ((resume = false ∨ output_file d = None ∨ state_file d = None)
   ∧ check_resume o resume uri total_size d = (d, Ok fresh))
  ∨ ∃ f content,
      resume = true ∧ output_file d = Some f ∧ state_file d = Some content
      ∧ ((∃ st, load_state uri total_size content = Ok (Some st)
                ∧ check_resume o resume uri total_size d = (d, Ok st))
         ∨ ((∀ st, load_state uri total_size content ≠ Ok (Some st))
            ∧ check_resume o resume uri total_size d = discarded_files o d)).
Proof.
  destruct resume; [|left; split; [by left|by apply check_resume_absent; left]].
  destruct (output_file d) as [f|] eqn:Hf;
    [|left; split; [right; by left|apply check_resume_absent; right; by left]].
  destruct (state_file d) as [content|] eqn:Hsf;
    [|left; split; [right; by right|apply check_resume_absent; right; by right]].
  right. exists f, content. split; [done|]. split; [done|]. split; [done|].
  destruct (load_state uri total_size content) as [[st|]|x] eqn:Hl.
  - left. exists st. split; [done|]. by apply check_resume_resume with f content.
  - right. split; [done|]. apply check_resume_discard with f content; try done.
    by rewrite Hl.
  - right. split; [done|]. apply check_resume_discard with f content; try done.
    by rewrite Hl.
Qed.

(** The state a download starts from is the empty one, unless it is
    read from the state file. *)
Lemma check_resume_state o resume uri total_size d d1 st :
  check_resume o resume uri total_size d = (d1, Ok st) →
  st = fresh
  ∨ resume = true ∧ d1 = d
    ∧ ∃ f content,
        output_file d = Some f ∧ state_file d = Some content
        ∧ load_state uri total_size content = Ok (Some st).
Proof.
  intros Hcheck.
  destruct (check_resume_cases o resume uri total_size d)
    as [[_ Heq] | (f & content & -> & Hf & Hsf & [(st' & Hl & Heq) | [Hl Heq]])];
    rewrite Heq in Hcheck.
  - left. by injection Hcheck as <- <-.
  - right. injection Hcheck as <- <-. split; [done|]. split; [done|].
    by exists f, content.
  - left. unfold discarded_files in Hcheck.
    destruct (unlink_output_ok o), (unlink_state_ok o); try done.
    by injection Hcheck as <- <-.
Qed.

Section events.
Context (e : env) (uri : string) (total_size : Z).
Context (segments : list CalcSegments.segment) (st0 : dl_state) (tasks : list task).
Hypothesis Hspawn : spawn segments st0 = Ok tasks.

Local Abbreviation step := (on_event e uri total_size tasks).
Local Abbreviation run := (run_events e uri total_size tasks).

(** Only tasks of the plan settle. *)
Lemma on_event_settled s ev (i : nat) :
  i ∈ settled (step s ev) →
  i ∈ settled s ∨ (ev = Settle i ∧ (i < length segments)%nat).
Proof.
  destruct ev as [j|w]; simpl.
  - destruct (find_task j tasks) as [t|] eqn:Ht; [|by left].
    case_bool_decide; [by left|].
    destruct (download_segment_async _ _ _ _ _). simpl.
    intros [->%elem_of_singleton|?]%elem_of_union; [|by left].
    right. split; [done|]. by apply (find_task_spawn _ _ _ _ _ Hspawn) in Ht as [? _].
  - destruct (updater s); [|by left]. destruct (_save_state _ _ _ _ _). by left.
Qed.

Lemma on_event_settled_mono s ev (i : nat) :
  i ∈ settled s → i ∈ settled (step s ev).
Proof.
  intros Hi. destruct ev as [j|w]; simpl.
  - destruct (find_task j tasks); [|done]. case_bool_decide; [done|].
    destruct (download_segment_async _ _ _ _ _). simpl.
    by apply elem_of_union_r.
  - destruct (updater s); [|done]. by destruct (_save_state _ _ _ _ _).
Qed.

(** An id enters the completed set only through the callback of its own
    task, which exists only for a segment that was not completed at the
    start; the progress dictionary only loses keys. *)
Lemma on_event_mem s ev :
  (∀ k, k ∈ completed_segments (mem (step s ev)) →
        k ∈ completed_segments (mem s)
        ∨ ∃ i : nat, k = segment_key i ∧ ev = Settle i
                     ∧ i ∈ settled (step s ev) ∧ (i < length segments)%nat
                     ∧ segment_key i ∉ completed_segments st0)
  ∧ (∀ k, k ∈ completed_segments (mem s) →
          k ∈ completed_segments (mem (step s ev)))
  ∧ entries (segment_progress (mem (step s ev)))
    ⊆ entries (segment_progress (mem s)).
Proof.
  destruct ev as [j|w]; simpl.
  - destruct (find_task j tasks) as [t|] eqn:Ht;
      [|split; [by left|done]].
    case_bool_decide; [split; [by left|done]|].
    destruct (download_segment_async _ _ _ _ _) as [file' [[|]|x]]; simpl;
      try (split; [by left|done]).
    split; [|split].
    + intros k [->%elem_of_singleton|?]%elem_of_union; [|by left].
      right. exists j. split; [done|]. split; [done|].
      split; [apply elem_of_union_l; by apply elem_of_singleton|].
      by apply (find_task_spawn _ _ _ _ _ Hspawn) in Ht as (? & _ & ? & _).
    + intros k Hk. by apply elem_of_union_r.
    + rewrite entries_del_key. apply delete_subseteq.
  - destruct (updater s); [|split; [by left|done]].
    destruct (_save_state _ _ _ _ _). simpl. split; [by left|done].
Qed.

(** The fetcher of a task that does not complete leaves the output
    file as it was. *)
Lemma on_event_untouched s ev :
  completed_segments (mem s) = completed_segments st0 →
  completed_segments (mem (step s ev)) = completed_segments st0 →
  output_file (disk (step s ev)) = output_file (disk s).
Proof.
  intros Hs Hsame. destruct ev as [j|w]; simpl in *.
  - destruct (find_task j tasks) as [t|] eqn:Ht; [|done].
    case_bool_decide; [done|].
    destruct (download_segment_cases (retry_times e) (output_file (disk s))
                (task_range t) (server e j) (task_offset t))
      as [[_ Heq] | (f & n & status & body & _ & _ & _ & _ & _ & _ & Heq)];
      rewrite Heq in *; simpl in *; [done|].
    apply (find_task_spawn _ _ _ _ _ Hspawn) in Ht as (_ & _ & Hnot & _).
    destruct Hnot. rewrite <- Hsame. apply elem_of_union_l.
    by apply elem_of_singleton.
  - destruct (updater s); [|done].
    pose proof (save_state_output w uri total_size (mem s) (disk s)) as Hout.
    by destruct (_save_state _ _ _ _ _).
Qed.

Lemma run_keeps trace : ∀ s k,
  k ∈ completed_segments (mem s) → k ∈ completed_segments (mem (run s trace)).
Proof.
  induction trace as [|ev trace IH]; intros s k Hk; [done|].
  simpl. apply IH. by apply (on_event_mem s ev).
Qed.

Lemma run_completed trace : ∀ s,
  (∀ i : nat, i ∈ settled s → (i < length segments)%nat) →
  let s' := run s trace in
  (∀ i : nat, i ∈ settled s' → (i < length segments)%nat)
  ∧ (∀ k, k ∈ completed_segments (mem s') →
          k ∈ completed_segments (mem s)
          ∨ ∃ i : nat, k = segment_key i ∧ Settle i ∈ trace
                       ∧ i ∈ settled s' ∧ (i < length segments)%nat
                       ∧ segment_key i ∉ completed_segments st0)
  ∧ (∀ k, k ∈ completed_segments (mem s) → k ∈ completed_segments (mem s'))
  ∧ (∀ i : nat, i ∈ settled s → i ∈ settled s')
  ∧ entries (segment_progress (mem s')) ⊆ entries (segment_progress (mem s)).
Proof.
  induction trace as [|ev trace IH]; intros s Hs.
  - simpl. split; [done|]. split; [by left|]. done.
  - simpl.
    assert (∀ i : nat, i ∈ settled (step s ev) → (i < length segments)%nat) as Hs'.
    { intros i [?|[_ ?]]%on_event_settled; [by apply Hs|done]. }
    destruct (IH _ Hs') as (Hset & Hfrom & Hkeep & Hmono & Hprog).
    destruct (on_event_mem s ev) as (Hfrom1 & Hkeep1 & Hprog1).
    split; [done|]. split; [|split; [|split]].
    + intros k [Hk|(i & -> & Hin & Hi)]%Hfrom.
      * apply Hfrom1 in Hk as [?|(i & -> & -> & Hi & Hlt)]; [by left|].
        right. exists i. split; [done|]. split; [apply elem_of_cons; by left|].
        split; [by apply Hmono|done].
      * right. exists i. split; [done|]. split; [apply elem_of_cons; by right|].
        done.
    + intros k Hk. by apply Hkeep, Hkeep1.
    + intros i Hi. by apply Hmono, on_event_settled_mono.
    + etrans; [exact Hprog|exact Hprog1].
Qed.

(** As long as no segment is completed, the output file is as it
    was. *)
Lemma run_untouched trace : ∀ s,
  completed_segments (mem s) = completed_segments st0 →
  completed_segments (mem (run s trace)) = completed_segments st0 →
  output_file (disk (run s trace)) = output_file (disk s).
Proof.
  induction trace as [|ev trace IH]; intros s Hs Hsame; [done|].
  simpl in *.
  assert (completed_segments (mem (step s ev)) = completed_segments st0) as Hstep.
  { apply set_eq. intros k. split.
    - intros Hk. rewrite <- Hsame. by apply run_keeps.
    - rewrite <- Hs. apply (on_event_mem s ev). }
  rewrite (IH _ Hstep Hsame). by apply on_event_untouched.
Qed.

End events.

End coordinator_runs.

Section coordinator_cases.
Import DownloadSegment Json DownloadManager.

(** What a download ends with, whatever happens: the exception of the
    step that raised, or the run of its events from the restored
    state. *)
Lemma download_cases e trace final_write uri file_path segments resume d :
  let run := download_file_async e trace final_write uri file_path segments resume d in
  run = (d, fresh, Raise IndexError) ∧ segments = []
  ∨ ∃ first_start last_end d1 r1,
      last segments = Some (first_start, last_end)
      ∧ check_resume (os e) resume uri (last_end + 1) d = (d1, r1)
      ∧ ((∃ x, r1 = Raise x ∧ run = (d1, fresh, Raise x))
         ∨ ∃ st,
             r1 = Ok st
             ∧ ((∃ d2 x, create_file (os e) (last_end + 1) d1 = (d2, Raise x)
                         ∧ run = (d2, st, Raise x))
                ∨ ∃ d2,
                    create_file (os e) (last_end + 1) d1 = (d2, Ok ())
                    ∧ ((∃ x, spawn segments st = Raise x
                             ∧ run = (d2, st, Raise x))
                       ∨ ∃ tasks,
                           spawn segments st = Ok tasks
                           ∧ let s := await_tasks e uri (last_end + 1) tasks
                                        {| disk := d2; mem := st; settled := ∅;
                                           updater := Ok () |} trace in
                             run = (finish (length segments) (mem s)
                                      (_save_state final_write uri (last_end + 1)
                                         (mem s) (disk s)).1,
                                    mem s, Ok file_path)))).
Proof.
  intros run. unfold run, download_file_async.
  destruct (last segments) as [[first_start last_end]|] eqn:Hlast.
  2:{ left. split; [done|]. by apply last_None. }
  right. destruct (check_resume (os e) resume uri (last_end + 1) d)
    as [d1 r1] eqn:Hcheck.
  exists first_start, last_end, d1, r1.
  split; [done|]. split; [done|].
  destruct r1 as [st|x]; [right; exists st; split; [done|]|left; by exists x].
  destruct (create_file (os e) (last_end + 1) d1) as [d2 [[]|x]] eqn:Hcreate.
  2:{ left. by exists d2, x. }
  right. exists d2. split; [done|].
  destruct (spawn segments st) as [tasks|x] eqn:Hspawn.
  - right. exists tasks. split; [done|].
    by rewrite (download_without_progress_run _ _ _ _ _ _ _ _ tasks Hspawn).
  - left. exists x. split; [done|].
    by rewrite (download_without_progress_raise _ _ _ _ _ _ _ _ x Hspawn).
Qed.

Lemma await_tasks_completed e uri total_size segments st tasks d2 trace :
  spawn segments st = Ok tasks →
  let s := await_tasks e uri total_size tasks
             {| disk := d2; mem := st; settled := ∅; updater := Ok () |} trace in
  (∀ k, k ∈ completed_segments (mem s) →
        k ∈ completed_segments st
        ∨ ∃ i : nat, k = segment_key i ∧ Settle i ∈ trace
                     ∧ (i < length segments)%nat)
  ∧ (∀ k, k ∈ completed_segments st → k ∈ completed_segments (mem s))
  ∧ entries (segment_progress (mem s)) ⊆ entries (segment_progress st).
Proof.
  intros Hspawn s. unfold s, await_tasks.
  destruct tasks as [|t rest] eqn:Htasks.
  - simpl. split; [by left|done].
  - rewrite <- Htasks in *.
    destruct (run_completed e uri total_size segments st tasks Hspawn trace
                {| disk := d2; mem := st; settled := ∅; updater := Ok () |})
      as (_ & Hfrom & Hkeep & _ & Hprog).
    { intros i Hi. by apply elem_of_empty in Hi. }
    split; [|done]. intros k [?|(i & -> & ? & _ & ? & _)]%Hfrom; [by left|].
    right. by exists i.
Qed.

(** While no segment is completed, the output file is as it was. *)
Lemma await_tasks_untouched e uri total_size segments st tasks d2 trace :
  spawn segments st = Ok tasks →
  let s := await_tasks e uri total_size tasks
             {| disk := d2; mem := st; settled := ∅; updater := Ok () |} trace in
  completed_segments (mem s) = completed_segments st →
  output_file (disk s) = output_file d2.
Proof.
  intros Hspawn s. unfold s, await_tasks. destruct tasks as [|t rest] eqn:Htasks;
    [done|].
  rewrite <- Htasks in *. intros Hsame.
  by rewrite (run_untouched e uri total_size segments st tasks Hspawn trace
                {| disk := d2; mem := st; settled := ∅; updater := Ok () |}
                eq_refl Hsame).
Qed.

(** The ids [0 .. n - 1] as a set. *)
Lemma size_indices (n : nat) :
  size (list_to_set (segment_key <$> seq 0 n) : gset hashable) = n.
Proof.
  rewrite size_list_to_set.
  - by rewrite length_fmap, length_seq.
  - apply (@NoDup_fmap_2 _ _ segment_key segment_key_inj), NoDup_seq.
Qed.

Lemma elem_of_indices (n : nat) k :
  k ∈ (list_to_set (segment_key <$> seq 0 n) : gset hashable)
  ↔ ∃ i : nat, (i < n)%nat ∧ k = segment_key i.
Proof.
  rewrite elem_of_list_to_set, list_elem_of_fmap. split.
  - intros (i & -> & Hi). apply elem_of_seq in Hi. exists i. split; [lia|done].
  - intros (i & Hi & ->). exists i. split; [done|]. apply elem_of_seq. lia.
Qed.

(** A set of indices of the plan has [n] members exactly when it holds
    them all. *)
Lemma full_iff_size (c : gset hashable) (n : nat) :
  (∀ k, k ∈ c → ∃ i : nat, (i < n)%nat ∧ k = segment_key i) →
  (size c = n ↔ ∀ i : nat, (i < n)%nat → segment_key i ∈ c).
Proof.
  intros Hvalid.
  set (U := list_to_set (segment_key <$> seq 0 n) : gset hashable).
  assert (c ⊆ U) as Hsub by (intros k Hk; apply elem_of_indices; by apply Hvalid).
  split.
  - intros Hsize i Hi.
    assert (c = U) as ->.
    { apply set_subseteq_size_eq; [done|]. unfold U. rewrite size_indices. lia. }
    apply elem_of_indices. by exists i.
  - intros Hall.
    assert (c = U) as ->.
    { apply set_eq. intros k. split; [apply Hsub|].
      intros (i & Hi & ->)%elem_of_indices. by apply Hall. }
    apply size_indices.
Qed.

(** The completed set of a run that starts from indices of the plan
    holds indices of the plan. *)
Lemma download_completed_valid e trace final_write uri file_path segments resume d :
  (∀ f content st first_start last_end,
     resume = true → output_file d = Some f → state_file d = Some content →
     last segments = Some (first_start, last_end) →
     load_state uri (last_end + 1) content = Ok (Some st) →
     ∀ k, k ∈ completed_segments st →
          ∃ i : nat, (i < length segments)%nat ∧ k = segment_key i) →
  ∀ k, k ∈ completed_segments
             (download_file_async e trace final_write uri file_path segments
                resume d).1.2 →
       ∃ i : nat, (i < length segments)%nat ∧ k = segment_key i.
Proof.
  intros Hstart.
  destruct (download_cases e trace final_write uri file_path segments resume d)
    as [[-> _] | (first_start & last_end & d1 & r1 & Hlast & Hcheck & Hrun)].
  { simpl. intros k Hk. by apply elem_of_empty in Hk. }
  destruct Hrun as [(x & -> & ->) | (st & -> & Hrun)].
  { simpl. intros k Hk. by apply elem_of_empty in Hk. }
  assert (∀ k, k ∈ completed_segments st →
               ∃ i : nat, (i < length segments)%nat ∧ k = segment_key i) as Hst.
  { apply check_resume_state in Hcheck
      as [-> | (-> & -> & f & content & Hf & Hsf & Hload)].
    - intros k Hk. by apply elem_of_empty in Hk.
    - by apply (Hstart f content st first_start last_end). }
  destruct Hrun as [(d2 & x & _ & ->) | (d2 & _ & [(x & _ & ->) | (tasks & Hspawn & ->)])];
    simpl; [done|done|].
  destruct (await_tasks_completed e uri (last_end + 1) segments st tasks d2 trace
              Hspawn) as (Hfrom & _ & _).
  intros k [Hk | (i & -> & _ & Hi)]%Hfrom; [by apply Hst|by exists i].
Qed.

End coordinator_cases.

Section coordinator_examples.
Import DownloadSegment Json DownloadManager Scenario.
Local Open Scope string_scope.

Example download_two_segments :
  let run :=
    download_file_async serving [Checkpoint WriteOk; Settle 1; Settle 0] WriteOk
      "http://h/f" "/tmp/f" halves true no_files in
  run.2 = Ok "/tmp/f"
  ∧ output_file run.1.1 = Some (replicate 10 xff)
  ∧ state_file run.1.1 = None
  ∧ size (completed_segments run.1.2) = 2%nat
  ∧ segment_progress run.1.2 = JObj ∅.
Proof. by vm_compute. Qed.

(** A state file whose progress entries are not a dictionary is resumed
    from, and creating the first task raises. *)
Example progress_list_raises :
  let d := {| output_file := Some (zeros 10);
              state_file := Some (Ok progress_list) |} in
  download_file_async serving [Settle 1] WriteOk "http://h/f" "/tmp/f" halves true d
  = (d, {| completed_segments := list_to_set [int_key 0];
           segment_progress := JArr [JInt 3] |}, Raise AttributeError).
Proof. reflexivity. Qed.

(** A state path that can be neither read nor deleted ends the
    download with [OSError]; the output file is gone by then. *)
Example undeletable_state_raises :
  let d := {| output_file := Some (zeros 10);
              state_file := Some (Raise OSError) |} in
  let o := {| mkdir_ok := true; open_ok := true; sparse_ok := true;
              truncate_ok := true; unlink_output_ok := true;
              unlink_state_ok := false |} in
  download_file_async {| retry_times := 2; server := λ _ _, Timeout; os := o |}
    [Settle 0] WriteOk "http://h/f" "/tmp/f" halves true d
  = ({| output_file := None; state_file := Some (Raise OSError) |}, fresh,
     Raise OSError).
Proof. reflexivity. Qed.

End coordinator_examples.

Section coordinator_properties.
Import DownloadSegment Json DownloadManager Scenario.
Local Open Scope string_scope.
Local Open Scope Z_scope.




(** What [load_state] takes for a state to resume from. *)
Lemma load_state_Some uri total_size content st :
  load_state uri total_size content = Ok (Some st)
  ↔ ∃ members,
      content = Ok (JObj members)
      ∧ members !! "uri" = Some (JStr uri)
      ∧ (∃ v, members !! "total_size" = Some v ∧ eq_int v total_size = true)
      ∧ py_set (default (JArr []) (members !! "completed_segments"))
        = Ok (completed_segments st)
      ∧ segment_progress st = default (JObj ∅) (members !! "segment_progress").
Proof.
  unfold load_state. split.
  - destruct content as [state_data|x]; [|done].
    destruct state_data as [| | | | | |members]; try done.
    cbn [mbind res_bind]. unfold uri_matches, size_matches.
    destruct (members !! "uri") as [[| | | |s| |]|] eqn:Hu; try done.
    destruct (String.eqb s uri) eqn:Hs; [|done]. apply String.eqb_eq in Hs as ->.
    destruct (members !! "total_size") as [v|] eqn:Ht; [|done].
    destruct (eq_int v total_size) eqn:Hv; [|done]. cbn [andb].
    destruct (py_set _) as [completed|x] eqn:Hc; [|done].
    cbn [mbind res_bind]. intros [= <-]. exists members.
    split; [done|]. split; [done|]. split; [by exists v|]. done.
  - intros (members & -> & Hu & (v & Ht & Hv) & Hc & Hp).
    cbn [mbind res_bind]. unfold uri_matches, size_matches.
    rewrite Hu, Ht, Hv, String.eqb_refl. cbn [andb]. rewrite Hc.
    cbn [mbind res_bind]. destruct st as [completed progress]. simpl in *.
    by rewrite Hp.
Qed.




(** C8, as stated, fails: a three-byte output file with no state file
    beside it is neither deleted nor brought to the ten bytes of the
    download; the fetchers are started on it as it is. *)
Lemma short_output_file_is_kept :
  let d := {| output_file := Some [x01; x02; x03]; state_file := None |} in
  check_resume all_ok true "http://h/f" 10 d = (d, Ok fresh)
  ∧ create_file all_ok 10 d = (d, Ok ())
  ∧ output_file
      (download_file_async silent [] WriteOk "http://h/f" "/tmp/f" halves true d).1.1
    = Some [x01; x02; x03]
  ∧ length [x01; x02; x03] ≠ Z.to_nat 10.
Proof.
  split; [reflexivity|]. split; [reflexivity|]. split; [reflexivity|].
  simpl. lia.
Qed.

(** C8, amended: the length of an existing output file is never looked
    at.  With resume disabled, or with no state file on disk, the
    resume check deletes nothing, and an output file that exists is
    kept as it is, whatever its length.  An output file is deleted only
    by the resume check, when resume is enabled and a state file is on
    disk that is not a state to resume from; otherwise it is left as it
    is.  An output file that is not there after the resume check is
    created with exactly [total_size] zero bytes, and the tasks start
    on the file as it is then. *)
Theorem output_file_created_only_when_absent e resume uri total_size d :
  mkdir_ok (os e) = true → open_ok (os e) = true → sparse_ok (os e) = true →
  0 < total_size →
  let d1 := (check_resume (os e) resume uri total_size d).1 in
  let r1 := (check_resume (os e) resume uri total_size d).2 in
  let d2 := (create_file (os e) total_size d1).1 in
  (create_file (os e) total_size d1).2 = Ok ()
  ∧ (resume = false ∨ state_file d = None →
     d1 = d ∧ r1 = Ok fresh ∧ ∀ f, output_file d = Some f → d2 = d)
  ∧ (∀ f, output_file d = Some f →
          (output_file d1 = Some f ∨ output_file d1 = None)
          ∧ (output_file d1 = None
             ↔ resume = true ∧ unlink_output_ok (os e) = true
               ∧ ∃ content,
                   state_file d = Some content
                   ∧ ∀ st, load_state uri total_size content ≠ Ok (Some st)))
  ∧ (∀ f, output_file d1 = Some f → d2 = d1)
  ∧ (output_file d1 = None →
     output_file d2 = Some (zeros total_size)
     ∧ Z.of_nat (length (zeros total_size)) = total_size
     ∧ state_file d2 = state_file d1)
  ∧ (∀ final_write file_path segments first_start st,
       last segments = Some (first_start, total_size - 1) → r1 = Ok st →
       output_file
         (download_file_async e [] final_write uri file_path segments resume d).1.1
       = output_file d2).
Proof.
  intros Hmk Hop Hsp Hpos d1 r1 d2.
  pose proof (length_zeros total_size ltac:(lia)) as Hlen.
  assert (create_file (os e) total_size d1
          = (match output_file d1 with
             | Some _ => d1
             | None => {| output_file := Some (zeros total_size);
                          state_file := state_file d1 |}
             end, Ok ())) as Hcreate by (by apply create_file_ok).
  unfold d2. rewrite Hcreate. simpl. split_and!.
  - done.
  - intros Hno.
    assert (check_resume (os e) resume uri total_size d = (d, Ok fresh)) as Hcheck.
    { apply check_resume_absent. destruct Hno as [?|?]; [by left|right; by right]. }
    unfold d1, r1. rewrite Hcheck. simpl. split; [done|]. split; [done|].
    by intros f ->.
  - intros f Hf. unfold d1.
    destruct (check_resume_cases (os e) resume uri total_size d)
      as [[Hno ->] | (f' & content & -> & Hf' & Hsf &
                      [(st & Hl & ->) | [Hl ->]])]; simpl.
    + split; [by left|]. rewrite Hf. split; [done|].
      intros (-> & _ & content & Hsf & _). destruct Hno as [?|[?|?]]; congruence.
    + split; [by left|]. rewrite Hf. split; [done|].
      intros (_ & _ & content' & Hsf' & Hnot). rewrite Hsf in Hsf'.
      injection Hsf' as <-. by destruct (Hnot st).
    + unfold discarded_files.
      destruct (unlink_output_ok (os e)) eqn:Hout;
        [destruct (unlink_state_ok (os e))|]; simpl.
      * split; [by right|]. split; [|done]. intros _. split; [done|].
        split; [done|]. by exists content.
      * split; [by right|]. split; [|done]. intros _. split; [done|].
        split; [done|]. by exists content.
      * split; [by left|]. rewrite Hf. split; [done|]. by intros (_ & ? & _).
  - by intros f ->.
  - by intros ->.
  - intros final_write file_path segments first_start st Hlast Hr1.
    unfold download_file_async. rewrite Hlast.
    replace (total_size - 1 + 1) with total_size by lia.
    fold d1. destruct (check_resume (os e) resume uri total_size d) as [d1' r1'].
    simpl in *. subst r1 d1. rewrite Hr1. rewrite Hcreate.
    destruct (spawn segments st) as [tasks|x] eqn:Hspawn.
    + rewrite (download_without_progress_run _ _ _ _ _ _ _ _ tasks Hspawn).
      simpl. rewrite finish_output, save_state_output.
      unfold await_tasks. by destruct tasks.
    + by rewrite (download_without_progress_raise _ _ _ _ _ _ _ _ x Hspawn).
Qed.

Lemma output_file_created_only_when_absent_witness :
  let d := {| output_file := Some [x01; x02; x03];
              state_file := Some (Ok stale) |} in
  (check_resume all_ok true "http://h/f" 10 d).1
  = {| output_file := None; state_file := None |}
  ∧ output_file
      (create_file all_ok 10 (check_resume all_ok true "http://h/f" 10 d).1).1
    = Some (zeros 10)
  ∧ Z.of_nat (length (zeros 10)) = 10.
Proof.
  intros d. split; [reflexivity|].
  destruct (output_file_created_only_when_absent silent true "http://h/f" 10 d
              eq_refl eq_refl eq_refl ltac:(lia))
    as (_ & _ & _ & _ & Hcreated & _).
  destruct (Hcreated eq_refl) as (Hout & Hlen & _). by split.
Defined.


Lemma restore_disjoint_fresh : disjoint_state fresh.
Proof. intros i Hi. by apply elem_of_empty in Hi. Qed.

(** No step of a download breaks the invariant. *)
Lemma download_disjoint e trace final_write uri file_path segments resume d :
  (∀ f content st first_start last_end,
     resume = true → output_file d = Some f → state_file d = Some content →
     last segments = Some (first_start, last_end) →
     load_state uri (last_end + 1) content = Ok (Some st) →
     disjoint_state st) →
  disjoint_state
    (download_file_async e trace final_write uri file_path segments resume d).1.2.
Proof.
  intros Hstart.
  destruct (download_cases e trace final_write uri file_path segments resume d)
    as [[-> _] | (first_start & last_end & d1 & r1 & Hlast & Hcheck & Hrun)];
    [apply restore_disjoint_fresh|].
  destruct Hrun as [(x & -> & ->) | (st & -> & Hrun)];
    [apply restore_disjoint_fresh|].
  assert (disjoint_state st) as Hst.
  { apply check_resume_state in Hcheck
      as [-> | (-> & -> & f & content & Hf & Hsf & Hload)];
      [apply restore_disjoint_fresh|].
    by apply (Hstart f content st first_start last_end). }
  destruct Hrun as [(d2 & x & _ & ->) | (d2 & _ & [(x & _ & ->) | (tasks & _ & ->)])];
    simpl; [done|done|].
  apply (await_tasks_invariant e uri (last_end + 1) tasks
           (λ s, disjoint_state (mem s))); [|done].
  intros. by apply on_event_disjoint.
Qed.



Lemma on_event_same e uri total_size tasks s1 s2 ev1 ev2 :
  same_but_state_file s1 s2 → same_event ev1 ev2 →
  same_but_state_file (on_event e uri total_size tasks s1 ev1)
                      (on_event e uri total_size tasks s2 ev2).
Proof.
  intros (Hmem & Hset & Hout & Hup1 & Hup2) Hev.
  destruct ev1 as [i|w1], ev2 as [j|w2]; try done; simpl in Hev.
  - subst j. simpl. destruct (find_task i tasks) as [t|]; [|done].
    rewrite Hset, Hout, Hmem. case_bool_decide; [done|].
    by destruct (download_segment_async _ _ _ _ _).
  - simpl. rewrite Hup1, Hup2.
    pose proof (save_state_Ok w1 uri total_size (mem s1) (disk s1)).
    pose proof (save_state_Ok w2 uri total_size (mem s2) (disk s2)).
    pose proof (save_state_output w1 uri total_size (mem s1) (disk s1)).
    pose proof (save_state_output w2 uri total_size (mem s2) (disk s2)).
    destruct (_save_state w1 _ _ _ _), (_save_state w2 _ _ _ _).
    simpl in *. unfold same_but_state_file. simpl. repeat split; congruence.
Qed.

Lemma run_events_same e uri total_size tasks trace1 trace2 :
  same_schedule trace1 trace2 →
  ∀ s1 s2, same_but_state_file s1 s2 →
    same_but_state_file (run_events e uri total_size tasks s1 trace1)
                        (run_events e uri total_size tasks s2 trace2).
Proof.
  induction 1 as [|ev1 ev2 trace1 trace2 Hev _ IH]; intros s1 s2 Hs; [done|].
  simpl. by apply IH, on_event_same.
Qed.



End coordinator_properties.

(** * Further properties of the coordinator *)

Section coordinator_extras.
Import DownloadSegment Json DownloadManager Scenario.
Local Open Scope string_scope.
Local Open Scope Z_scope.

(** X12: the test that ends a download, [len(completed_segments) ==
    total_segments], is exact whenever the download does not resume
    (resume disabled, a file missing, or the state file given up) or
    resumes from a state whose completed ids are indices of the plan:
    the completed set then holds only indices of the plan, and it has
    as many members as there are segments exactly when every segment
    is in it. *)
Theorem completion_test_is_exact
    e trace final_write uri file_path segments resume d :
  (∀ f content st first_start last_end,
     resume = true → output_file d = Some f → state_file d = Some content →
     last segments = Some (first_start, last_end) →
     load_state uri (last_end + 1) content = Ok (Some st) →
     ∀ k, k ∈ completed_segments st →
          ∃ i : nat, (i < length segments)%nat ∧ k = segment_key i) →
  let st' :=
    (download_file_async e trace final_write uri file_path segments resume d).1.2 in
  (∀ k, k ∈ completed_segments st' →
        ∃ i : nat, (i < length segments)%nat ∧ k = segment_key i)
  ∧ (size (completed_segments st') = length segments
     ↔ ∀ i : nat, (i < length segments)%nat →
                  segment_key i ∈ completed_segments st').
Proof.
  intros Hstart st'.
  assert (∀ k, k ∈ completed_segments st' →
               ∃ i : nat, (i < length segments)%nat ∧ k = segment_key i)
    as Hvalid by (by apply download_completed_valid).
  split; [done|]. by apply full_iff_size.
Qed.

Lemma completion_test_is_exact_witness :
  let st' :=
    (download_file_async first_only [Settle 1; Settle 0] WriteOk
       "http://h/f" "/tmp/f" halves true
       {| output_file := Some (zeros 10); state_file := Some (Ok stale) |}).1.2 in
  (∀ k, k ∈ completed_segments st' →
        ∃ i : nat, (i < length halves)%nat ∧ k = segment_key i)
  ∧ (size (completed_segments st') = length halves
     ↔ ∀ i : nat, (i < length halves)%nat →
                  segment_key i ∈ completed_segments st').
Proof.
  apply (completion_test_is_exact first_only [Settle 1; Settle 0] WriteOk
           "http://h/f" "/tmp/f" halves true
           {| output_file := Some (zeros 10); state_file := Some (Ok stale) |}).
  intros f content st first_start last_end _ _ [= <-] [= _ <-] Hload.
  assert (load_state "http://h/f" (9 + 1) (Ok stale) = Ok None) as Hstale
    by reflexivity.
  rewrite Hstale in Hload. discriminate.
Defined.

(** X13: no step of a download adds an entry to the progress map: an
    entry found there at the end was read from the state file the
    download resumed from.  A download that starts fresh therefore ends
    with an empty progress map. *)
Theorem progress_is_never_recorded
    e trace final_write uri file_path segments resume d key offset :
  entries
    (segment_progress
       (download_file_async e trace final_write uri file_path segments resume d).1.2)
    !! key = Some offset →
  resume = true
  ∧ ∃ members progress,
      state_file d = Some (Ok (JObj members))
      ∧ members !! "segment_progress" = Some progress
      ∧ entries progress !! key = Some offset.
Proof.
  intros Hkey.
  destruct (download_cases e trace final_write uri file_path segments resume d)
    as [[Heq _] | (first_start & last_end & d1 & r1 & _ & Hcheck & Hrun)].
  { rewrite Heq in Hkey. done. }
  destruct Hrun as [(x & -> & Heq) | (st & -> & Hrun)].
  { rewrite Heq in Hkey. done. }
  assert (entries (segment_progress st) !! key = Some offset) as Hst.
  { destruct Hrun as [(d2 & x & _ & Heq) |
                      (d2 & _ & [(x & _ & Heq) | (tasks & Hspawn & Heq)])];
      rewrite Heq in Hkey; simpl in Hkey; [done|done|].
    destruct (await_tasks_completed e uri (last_end + 1) segments st tasks d2 trace
                Hspawn) as (_ & _ & Hprog).
    by eapply lookup_weaken. }
  apply check_resume_state in Hcheck
    as [-> | (-> & -> & f & content & Hf & Hsf & Hload)]; [done|].
  split; [done|].
  apply load_state_Some in Hload as (members & -> & _ & _ & _ & Hp).
  rewrite Hp in Hst.
  destruct (members !! "segment_progress") as [progress|] eqn:Hm; [|done].
  by exists members, progress.
Qed.

Lemma progress_is_never_recorded_witness :
  true = true
  ∧ ∃ members progress,
      Some (Ok overlapping) = Some (Ok (JObj members))
      ∧ members !! "segment_progress" = Some progress
      ∧ entries progress !! "0" = Some (JInt 3).
Proof.
  apply (progress_is_never_recorded serving [Settle 1] WriteOk
           "http://h/f" "/tmp/f" halves true
           {| output_file := Some (zeros 10);
              state_file := Some (Ok overlapping) |} "0" (JInt 3)).
  by vm_compute.
Defined.

(** X14: a state written by [_save_state] and read back by the resume
    check for the same uri and total size, beside an existing output
    file, restores the completed set and the progress map that were
    saved, and deletes nothing. *)
Theorem saved_state_is_restored o uri total_size st d :
  is_Some (output_file d) →
  let d' := (_save_state WriteOk uri total_size st d).1 in
  check_resume o true uri total_size d' = (d', Ok st).
Proof.
  intros [f Hf] d'.
  apply check_resume_resume with f (Ok (state_json uri total_size st));
    [done|done|]. apply load_state_json.
Qed.

Lemma saved_state_is_restored_witness :
  let st := {| completed_segments := {[segment_key 0; segment_key 2]};
               segment_progress := JObj {["1" := JInt 3]} |} in
  let d := {| output_file := Some (zeros 10); state_file := None |} in
  let d' := (_save_state WriteOk "http://h/f" 10 st d).1 in
  check_resume all_ok true "http://h/f" 10 d' = (d', Ok st).
Proof.
  apply (saved_state_is_restored all_ok "http://h/f" 10
           {| completed_segments := {[segment_key 0; segment_key 2]};
              segment_progress := JObj {["1" := JInt 3]} |}
           {| output_file := Some (zeros 10); state_file := None |}).
  by eexists.
Defined.



End coordinator_extras.

(** * A download from a server that serves the resource *)

Section honest_origin.
Import CalcSegments DownloadSegment Json DownloadManager Origin.

Context (e : env) (uri : string) (total_size : Z).
Context (content : list byte) (segments : list segment) (tasks : list task).
Hypothesis Htiles : tiles 0 segments (Z.of_nat (length content)).
Hypothesis Hserves : serves content segments e.
Hypothesis Hretry : (1 ≤ retry_times e)%nat.
Hypothesis Htasks : spawn segments fresh = Ok tasks.

(** The output file has the length of the resource and holds its bytes
    in the range of every task that has settled, and every settled task
    is completed. *)
Local Abbreviation exact_so_far s :=
  (∃ f, output_file (disk s) = Some f
        ∧ length f = length content
        ∧ (∀ (i : nat) r (k : nat),
             i ∈ settled s → segments !! i = Some r →
             r.1 ≤ Z.of_nat k ≤ r.2 → f !! k = content !! k)
        ∧ (∀ i : nat, i ∈ settled s → segment_key i ∈ completed_segments (mem s))).

Lemma length_slice r (i : nat) :
  segments !! i = Some r →
  Z.of_nat (length (slice content r)) = r.2 - r.1 + 1.
Proof.
  intros Hi. destruct r as [s0 e0].
  destruct (tiles_bounds _ _ _ _ _ _ Htiles Hi) as (? & ? & ?).
  unfold slice. simpl. rewrite length_take, length_drop. lia.
Qed.

Lemma lookup_slice r (i m : nat) :
  segments !! i = Some r → (m < length (slice content r))%nat →
  slice content r !! m = content !! (Z.to_nat r.1 + m)%nat.
Proof.
  intros Hi Hm. pose proof (length_slice r i Hi) as Hlen. unfold slice in *.
  rewrite lookup_take_lt by (rewrite length_take in Hm; lia).
  by rewrite lookup_drop.
Qed.

Lemma honest_step s ev :
  exact_so_far s → exact_so_far (on_event e uri total_size tasks s ev).
Proof.
  intros (f & Hf & Hlen & Hbytes & Hdone).
  destruct ev as [i|w]; simpl.
  2:{ destruct (updater s); [|by exists f].
      pose proof (save_state_output w uri total_size (mem s) (disk s)) as Hout.
      destruct (_save_state _ _ _ _ _). simpl in *. exists f.
      by rewrite Hout. }
  destruct (find_task i tasks) as [t|] eqn:Ht; [|by exists f].
  case_bool_decide as Hsettled; [by exists f|].
  apply (find_task_spawn _ _ _ _ _ Htasks) in Ht as (Hlt & Hi & _ & Hoff).
  simpl in Hoff. injection Hoff as Hoff.
  destruct (task_range t) as [s0 e0] eqn:Hr.
  destruct (tiles_bounds _ _ _ _ _ _ Htiles Hi) as (Hs0 & Hse & He0).
  destruct (Hserves i (s0, e0) Hi) as (status & Hresp & Hstatus).
  pose proof (length_slice (s0, e0) i Hi) as Hslice. simpl in Hslice.
  assert (request_start (s0, e0) (task_offset t) = s0) as Hstart
    by (rewrite <- Hoff; done).
  assert (download_segment_async (retry_times e) (output_file (disk s)) (s0, e0)
            (server e i) (task_offset t)
          = (Some (write_at f (Z.to_nat s0) (slice content (s0, e0))), Ok true))
    as ->.
  { rewrite Hf. unfold download_segment_async. rewrite Hstart.
    apply (attempts_first_accepted _ 0 f s0 (server e i) 0 status _);
      [lia|lia|done| |intros m Hm; lia].
    rewrite Hresp. simpl. apply bool_decide_eq_true.
    destruct Hstatus as [-> | ->]; set_solver. }
  simpl. eexists. split; [done|].
  split; [rewrite write_at_length; lia|]. split.
  - intros j r k Hj Hjr Hk.
    destruct (decide (j = i)) as [->|Hne].
    + rewrite Hi in Hjr. injection Hjr as <-. simpl in Hk.
      rewrite write_at_lookup by lia. rewrite decide_True by lia.
      rewrite (lookup_slice (s0, e0) i) by (done || lia). simpl.
      f_equal. lia.
    + apply elem_of_union in Hj as [Hj%elem_of_singleton|Hj]; [done|].
      rewrite write_at_outside; [by apply (Hbytes j r k)|lia|].
      destruct r as [sj ej]. simpl in Hk.
      destruct (decide (j < i)%nat) as [Hji|Hij].
      * pose proof (tiles_ordered _ _ _ _ _ _ _ _ _ Htiles Hji Hjr Hi). lia.
      * pose proof (tiles_ordered _ _ _ i j _ _ _ _ Htiles ltac:(lia) Hi Hjr). lia.
  - intros j [->%elem_of_singleton|Hj]%elem_of_union.
    + apply elem_of_union_l. by apply elem_of_singleton.
    + apply elem_of_union_r. by apply Hdone.
Qed.

Lemma honest_settles trace : ∀ s (i : nat),
  (i < length segments)%nat →
  i ∈ settled s ∨ Settle i ∈ trace →
  i ∈ settled (run_events e uri total_size tasks s trace).
Proof.
  induction trace as [|ev trace IH]; intros s i Hi Hin.
  - destruct Hin as [?|Hin]; [done|]. by apply elem_of_nil in Hin.
  - simpl. apply IH; [done|].
    pose proof (on_event_settled_mono e uri total_size tasks s ev i) as Hmono.
    destruct Hin as [Hs | [<-|Hin]%elem_of_cons]; [left; by apply Hmono| |by right].
    left. destruct (decide (i ∈ settled s)) as [Hs|Hs]; [by apply Hmono|].
    destruct (lookup_lt_is_Some_2 segments i Hi) as [r Hr].
    destruct (find_task_spawn_Some i segments fresh tasks r Htasks Hr)
      as (offset & _ & Hfind).
    { intros Hz. by apply elem_of_empty in Hz. }
    unfold on_event. rewrite Hfind.
    rewrite bool_decide_false by done.
    destruct (download_segment_async _ _ _ _ _). simpl.
    apply elem_of_union_l. by apply elem_of_singleton.
Qed.

(** After every task has settled, the file is the resource and every
    segment is completed. *)
Lemma honest_run trace d2 :
  output_file d2 = Some (zeros (Z.of_nat (length content))) →
  segments ≠ [] →
  settles_all (length segments) trace →
  let s := await_tasks e uri total_size tasks
             {| disk := d2; mem := fresh; settled := ∅; updater := Ok () |} trace in
  output_file (disk s) = Some content
  ∧ ∀ i : nat, (i < length segments)%nat →
               segment_key i ∈ completed_segments (mem s).
Proof.
  intros Hout Hne Hall s.
  assert (tasks ≠ []) as Hsome.
  { destruct segments as [|r rest] eqn:Hsegs; [done|].
    destruct (find_task_spawn_Some 0 (r :: rest) fresh tasks r Htasks eq_refl)
      as (offset & _ & Hfind).
    { intros Hz. by apply elem_of_empty in Hz. }
    intros ->. done. }
  assert (s = run_events e uri total_size tasks
                {| disk := d2; mem := fresh; settled := ∅; updater := Ok () |} trace)
    as Hs by (unfold s, await_tasks; by destruct tasks).
  assert (exact_so_far s) as (f & Hf & Hlen & Hbytes & Hdone).
  { rewrite Hs. apply (run_events_invariant e uri total_size tasks
                         (λ s, exact_so_far s)); [apply honest_step|].
    simpl. eexists. split; [done|]. split.
    - unfold zeros. rewrite length_replicate. lia.
    - split; intros i; intros; by apply elem_of_empty in H. }
  assert (∀ i : nat, (i < length segments)%nat → i ∈ settled s) as Hsettled.
  { intros i Hi. rewrite Hs. apply honest_settles; [done|]. right. by apply Hall. }
  split.
  - rewrite Hf. f_equal. apply list_eq. intros k.
    destruct (decide (k < length content)%nat) as [Hk|Hk].
    + destruct (tiles_cover _ _ _ (Z.of_nat k) Htiles ltac:(lia))
        as (i & s0 & e0 & Hi & Hse).
      apply (Hbytes i (s0, e0) k); [|done|done].
      apply Hsettled. by apply lookup_lt_Some in Hi.
    + rewrite !lookup_ge_None_2 by lia. done.
  - intros i Hi. by apply Hdone, Hsettled.
Qed.

End honest_origin.

Section honest_download.
Import CalcSegments DownloadSegment Json DownloadManager Origin Scenario.
Local Open Scope string_scope.
Local Open Scope Z_scope.



End honest_download.

(** * The file name of a download *)

Section filename_examples.
Import FileInfoManager.
Local Open Scope string_scope.

Example split_pieces :
  PyStr.split ";" (String.list_ascii_of_string "a;b;;c")
  = String.list_ascii_of_string <$> ["a"; "b"; ""; "c"].
Proof. reflexivity. Qed.

Example split_empty : PyStr.split ";" [] = [[]].
Proof. reflexivity. Qed.

Example filename_quoted :
  _extract_filename (Ok "/a/b.zip")
    [("Content-Disposition",
      "attachment; filename=" +:+ String "034" ("report.pdf" +:+ String "034" ""))]
  = "report.pdf".
Proof. reflexivity. Qed.

Example filename_unquoted_spaces :
  _extract_filename (Ok "/a/b.zip")
    [("content-disposition", "inline ;  filename=my file.txt ")]
  = "my file.txt".
Proof. reflexivity. Qed.

Example filename_star_ignored :
  _extract_filename (Ok "/a/b.zip")
    [("Content-Disposition", "attachment; filename*=UTF-8''x.txt")]
  = "b.zip".
Proof. reflexivity. Qed.

Example filename_empty_quotes :
  _extract_filename (Ok "/a/b.zip")
    [("Content-Disposition", "attachment; filename=''")]
  = "b.zip".
Proof. reflexivity. Qed.

Example filename_directory_url : _extract_filename (Ok "/a/") [] = "downloaded_file".
Proof. reflexivity. Qed.

Example filename_bad_url : _extract_filename (Raise ValueError) [] = "downloaded_file".
Proof. reflexivity. Qed.

End filename_examples.

Section filename.
Import FileInfoManager.
Local Open Scope Z_scope.

Local Abbreviation chars := String.list_ascii_of_string.
Local Abbreviation text := String.string_of_list_ascii.
Local Abbreviation without sep l := (Forall (λ c, Ascii.eqb c sep = false) l).

Lemma split_without sep l : without sep l → PyStr.split sep l = [l].
Proof.
  induction l as [|c l IH]; intros Hl; [done|].
  apply Forall_cons in Hl as [Hc Hl]. simpl. rewrite Hc, IH by done. done.
Qed.

Lemma split_app sep a b :
  without sep a → PyStr.split sep (a ++ sep :: b) = a :: PyStr.split sep b.
Proof.
  induction a as [|c a IH]; intros Ha; simpl.
  - by rewrite Ascii.eqb_refl.
  - apply Forall_cons in Ha as [Hc Ha]. rewrite Hc, IH by done. done.
Qed.

Lemma lstrip_by_Forall (P : ascii → Prop) p l :
  Forall P l → Forall P (PyStr.lstrip_by p l).
Proof.
  induction l as [|c l IH]; intros Hl; [done|]. simpl.
  destruct (p c); [|done]. apply Forall_cons in Hl as [_ Hl]. by apply IH.
Qed.

Lemma strip_by_Forall (P : ascii → Prop) p l :
  Forall P l → Forall P (PyStr.strip_by p l).
Proof.
  intros Hl. unfold PyStr.strip_by.
  by apply Forall_rev, lstrip_by_Forall, Forall_rev, lstrip_by_Forall.
Qed.

Lemma lstrip_by_head p c l :
  p c = false → PyStr.lstrip_by p (c :: l) = c :: l.
Proof. intros Hc. simpl. by rewrite Hc. Qed.

Lemma strip_by_single p c : p c = false → PyStr.strip_by p [c] = [c].
Proof. intros Hc. unfold PyStr.strip_by. simpl. rewrite Hc. simpl. by rewrite Hc. Qed.

Lemma strip_by_ends p c l d :
  p c = false → p d = false →
  PyStr.strip_by p (c :: l ++ [d]) = c :: l ++ [d].
Proof.
  intros Hc Hd. unfold PyStr.strip_by. rewrite lstrip_by_head by done.
  assert (rev (c :: l ++ [d]) = d :: rev (c :: l)) as Hrev.
  { change (c :: l ++ [d]) with ((c :: l) ++ [d]). by rewrite rev_app_distr. }
  rewrite Hrev, lstrip_by_head by done. by rewrite <- Hrev, rev_involutive.
Qed.

(** A text that holds no character to drop is its own [strip]. *)
Lemma strip_by_keep p l :
  Forall (λ c, p c = false) l → PyStr.strip_by p l = l.
Proof.
  intros Hl. destruct l as [|c l]; [done|].
  apply Forall_cons in Hl as [Hc Hl].
  destruct l as [|d l _] using rev_ind.
  - by apply strip_by_single.
  - apply Forall_app in Hl as [_ Hd]. apply Forall_cons in Hd as [Hd _].
    by apply strip_by_ends.
Qed.

Lemma strip_by_drop_head p a l :
  p a = true → PyStr.strip_by p (a :: l) = PyStr.strip_by p l.
Proof. intros Ha. unfold PyStr.strip_by. simpl. by rewrite Ha. Qed.

Lemma strip_by_drop_last p c l b :
  p c = false → p b = true →
  PyStr.strip_by p (c :: l ++ [b]) = PyStr.strip_by p (c :: l).
Proof.
  intros Hc Hb. unfold PyStr.strip_by. rewrite !lstrip_by_head by done.
  change (c :: l ++ [b]) with ((c :: l) ++ [b]). rewrite rev_app_distr.
  simpl rev at 2. simpl app at 1. simpl PyStr.lstrip_by at 1. by rewrite Hb.
Qed.

Lemma startswith_app prefix l :
  PyStr.startswith prefix l = true → ∃ r, l = prefix ++ r.
Proof.
  revert l. induction prefix as [|p prefix IH]; intros l Hl; [by exists l|].
  destruct l as [|c l]; [done|]. simpl in Hl.
  apply andb_true_iff in Hl as [Hpc Hl]. apply Ascii.eqb_eq in Hpc as ->.
  destruct (IH _ Hl) as [r ->]. by exists r.
Qed.

Lemma startswith_prefix prefix r : PyStr.startswith prefix (prefix ++ r) = true.
Proof.
  induction prefix as [|p prefix IH]; [done|]. simpl.
  by rewrite Ascii.eqb_refl, IH.
Qed.

(** A piece with no ["="] in it gives no file name. *)
Lemma filename_of_part_none part :
  without "=" part → filename_of_part part = None.
Proof.
  intros Hpart. unfold filename_of_part.
  destruct (PyStr.startswith _ _) eqn:Hstart; [|done].
  apply startswith_app in Hstart as [r Hr].
  pose proof (strip_by_Forall _ PyStr.is_strip_space part Hpart) as Hstrip.
  rewrite Hr in Hstrip. apply Forall_app in Hstrip as [Hfn _].
  rewrite Forall_forall in Hfn. specialize (Hfn "="%char).
  rewrite Ascii.eqb_refl in Hfn. simpl in Hfn.
  assert (true = false) as Habs; [|done].
  apply Hfn. do 8 apply list_elem_of_further. apply list_elem_of_here.
Qed.

(** The piece [ filename="NAME"] gives [NAME]. *)
Lemma filename_of_part_quoted name :
  name ≠ [] → Forall (λ c, is_quote c = false) name →
  filename_of_part
    (chars " filename=" ++ "034"%char :: name ++ ["034"%char])
  = Some name.
Proof.
  intros Hne Hname. unfold filename_of_part.
  assert (PyStr.strip_by PyStr.is_strip_space
            (chars " filename=" ++ "034"%char :: name ++ ["034"%char])
          = chars "filename=" ++ "034"%char :: name ++ ["034"%char]) as ->.
  { simpl. rewrite strip_by_drop_head by done.
    change ("f"%char :: ?l) with ("f"%char :: l).
    apply (strip_by_ends PyStr.is_strip_space "f"
             (chars "ilename=" ++ "034"%char :: name) "034"); done. }
  rewrite startswith_prefix. simpl drop.
  destruct name as [|c name]; [done|].
  apply Forall_cons in Hname as [Hc Hname].
  rewrite strip_by_drop_head by done.
  change ((c :: name) ++ ["034"%char]) with (c :: name ++ ["034"%char]).
  rewrite strip_by_drop_last by done.
  rewrite strip_by_keep by (by constructor). done.
Qed.

Lemma first_filename_not_empty parts filename :
  first_filename parts = Some filename → filename ≠ [].
Proof.
  induction parts as [|part parts IH]; [done|]. simpl.
  destruct (filename_of_part part) as [f|] eqn:Hpart; [|done].
  intros [= <-]. unfold filename_of_part in Hpart.
  destruct (PyStr.startswith _ _); [|done].
  destruct (PyStr.strip_by is_quote _); [done|]. by injection Hpart as <-.
Qed.

(** What [split_last] returns holds no separator. *)
Lemma after_last_clean sep s : ∀ acc,
  (without sep (chars s) → without sep (chars acc)) →
  without sep (chars (PyStr.after_last sep s acc)).
Proof.
  induction s as [|c s IH]; intros acc Hacc; simpl.
  - apply Hacc. constructor.
  - destruct (Ascii.eqb c sep) eqn:Hc.
    + by apply IH.
    + apply IH. intros Hs. apply Hacc. simpl. by constructor.
Qed.

(** X17: [_extract_filename] never returns an empty name: a name taken
    from Content-Disposition or from the URL is used only when it is not
    empty, and ["downloaded_file"] stands in otherwise. *)
Theorem extract_filename_not_empty url_path h :
  _extract_filename url_path h ≠ EmptyString.
Proof.
  unfold _extract_filename.
  destruct (match get h "Content-Disposition" with
            | Some content_disp => first_filename (PyStr.split ";" (chars content_disp))
            | None => None
            end) as [filename|] eqn:Hheader.
  - assert (filename ≠ []) as Hne.
    { destruct (get h "Content-Disposition"); [|done].
      by apply first_filename_not_empty in Hheader. }
    by destruct filename.
  - destruct url_path as [path|x]; [|done].
    by destruct (PyStr.split_last "/" path).
Qed.

(** X18: without a Content-Disposition header the name comes from the
    URL path alone: it is what follows the last ["/"] of the path, or
    ["downloaded_file"] when nothing follows it or the URL could not be
    parsed; so it never holds a ["/"]. *)
Theorem extract_filename_from_url url_path h :
  get h "Content-Disposition" = None →
  Forall (λ c, c ≠ "/"%char) (chars (_extract_filename url_path h))
  ∧ ∀ dir name,
      url_path = Ok (dir +:+ String "/" name) →
      Forall (λ c, c ≠ "/"%char) (chars name) →
      _extract_filename url_path h
      = match name with
        | EmptyString => "downloaded_file"%string
        | _ => name
        end.
Proof.
  intros Hnone. unfold _extract_filename. rewrite Hnone. split.
  - assert (Forall (λ c, c ≠ "/"%char) (chars "downloaded_file")) as Hdefault
      by (simpl; repeat constructor; discriminate).
    destruct url_path as [path|x]; [|done].
    assert (without "/" (chars (PyStr.split_last "/" path))) as Hclean
      by (by apply after_last_clean).
    destruct (PyStr.split_last "/" path) eqn:Hlast; [done|].
    eapply Forall_impl; [exact Hclean|]. intros c Hc. by apply Ascii.eqb_neq.
  - intros dir name -> Hname.
    assert (PyStr.split_last "/" (dir +:+ String "/" name) = name) as ->;
      [|by destruct name].
    apply after_last_app. eapply Forall_impl; [exact Hname|].
    intros c Hc. by apply Ascii.eqb_neq.
Qed.

Lemma extract_filename_from_url_witness :
  Forall (λ c, c ≠ "/"%char)
    (chars (_extract_filename (Ok "/pub/a/b.zip") [("Content-Length", "10")]))
  ∧ ∀ dir name,
      Ok "/pub/a/b.zip" = Ok (dir +:+ String "/" name) →
      Forall (λ c, c ≠ "/"%char) (chars name) →
      _extract_filename (Ok "/pub/a/b.zip") [("Content-Length", "10")]
      = match name with
        | EmptyString => "downloaded_file"%string
        | _ => name
        end.
Proof.
  apply (extract_filename_from_url (Ok "/pub/a/b.zip") [("Content-Length", "10")]).
  reflexivity.
Defined.

(** X19: a Content-Disposition header of the form
    [TYPE; filename="NAME"] decides the name, whatever the URL: the
    result is [NAME] as the server sent it, slashes included, for every
    [TYPE] without [;] and [=] and every [NAME] that is not empty and
    holds no [;] and no quote. *)
Theorem extract_filename_from_disposition url_path h disposition name :
  get h "Content-Disposition"
  = Some (disposition +:+ "; filename="
            +:+ String "034" (name +:+ String "034" "")) →
  Forall (λ c, c ≠ ";"%char ∧ c ≠ "="%char) (chars disposition) →
  name ≠ EmptyString →
  Forall (λ c, c ≠ ";"%char ∧ is_quote c = false) (chars name) →
  _extract_filename url_path h = name.
Proof.
  intros Hheader Hdisp Hne Hname. unfold _extract_filename. rewrite Hheader.
  assert (chars (disposition +:+ "; filename="
                   +:+ String "034" (name +:+ String "034" ""))
          = chars disposition
              ++ ";"%char
                 :: (chars " filename=" ++ "034"%char :: chars name ++ ["034"%char]))
    as ->.
  { rewrite chars_app. simpl. do 12 f_equal. by rewrite chars_app. }
  rewrite split_app.
  2:{ eapply Forall_impl; [exact Hdisp|]. intros c [Hc _]. by apply Ascii.eqb_neq. }
  rewrite split_without.
  2:{ simpl. repeat (constructor; [done|]). apply Forall_app. split.
      - eapply Forall_impl; [exact Hname|]. intros c [Hc _]. by apply Ascii.eqb_neq.
      - by repeat constructor. }
  cbn [first_filename]. rewrite filename_of_part_none.
  2:{ eapply Forall_impl; [exact Hdisp|]. intros c [_ Hc]. by apply Ascii.eqb_neq. }
  rewrite filename_of_part_quoted.
  - apply String.string_of_list_ascii_of_string.
  - by destruct name.
  - eapply Forall_impl; [exact Hname|]. by intros c [_ Hc].
Qed.

Lemma extract_filename_from_disposition_witness :
  _extract_filename (Ok "/download.php")
    [("Content-Type", "application/zip");
     ("Content-Disposition",
      "attachment" +:+ "; filename=" +:+ String "034" ("../x.zip" +:+ String "034" ""))]
  = "../x.zip"%string.
Proof.
  apply (extract_filename_from_disposition (Ok "/download.php") _
           "attachment" "../x.zip").
  - reflexivity.
  - simpl. repeat constructor; discriminate.
  - discriminate.
  - simpl. repeat constructor; discriminate.
Defined.

End filename.

(** * The probe and the plan made from it *)

Section probe_extras.
Import FileInfoManager Downloader.
Local Open Scope string_scope.
Local Open Scope Z_scope.

Lemma get_file_info_async_responded r r2 :
  status r < 400 →
  _extract_file_size (resp_headers r) = None →
  get_file_info_async (Responded r) (Responded r2)
  = Ok {| size := _extract_file_size (resp_headers r2);
          content_type :=
            default "application/octet-stream" (get (resp_headers r) "Content-Type");
          supports_range :=
            contains (resp_headers r) "Accept-Ranges"
            || contains (resp_headers r) "Content-Range" |}.
Proof.
  intros Hstatus Hnone. unfold get_file_info_async.
  destruct (400 <=? status r) eqn:E; [lia|]. by rewrite Hnone.
Qed.

(** X20: the size found by the [Range: bytes=0-1] request does not make
    the download segmented.  When the HEAD response has no size and no
    range header, and the range response carries
    [Content-Range: <range>/<total>], the probe reports the total with
    [supports_range] false, and the file is planned as the one segment
    [[0, total - 1]] whatever count was asked for. *)
Theorem range_fallback_is_single_segment
    r r2 (range : string) (total : N) segments config_segments_amount :
  status r < 400 →
  get (resp_headers r) "Content-Length" = None →
  get (resp_headers r) "Content-Range" = None →
  get (resp_headers r) "Accept-Ranges" = None →
  get (resp_headers r2) "Content-Range" = Some (range +:+ String "/" (pretty total)) →
  (0 < total)%N →
  ∃ info,
    get_file_info_async (Responded r) (Responded r2) = Ok info
    ∧ size info = Some (Z.of_N total)
    ∧ supports_range info = false
    ∧ plan info segments config_segments_amount = Ok [(0, Z.of_N total - 1)].
Proof.
  intros Hstatus Hlength Hrange Haccept Hrange2 Htotal.
  assert (_extract_file_size (resp_headers r) = None) as Hnone
    by (unfold _extract_file_size; by rewrite Hrange, Hlength).
  assert (_extract_file_size (resp_headers r2) = Some (Z.of_N total)) as Hsome.
  { unfold _extract_file_size. by rewrite Hrange2, split_last_total, int_pretty. }
  eexists. split; [by apply get_file_info_async_responded|].
  rewrite Hsome. unfold contains. rewrite Haccept, Hrange.
  split; [done|]. split; [done|].
  unfold plan, segments_count. simpl. apply get_segment_one. lia.
Qed.

Lemma range_fallback_is_single_segment_witness :
  ∃ info,
    get_file_info_async
      (Responded {| status := 200; resp_headers := [("Content-Type", "text/plain")] |})
      (Responded {| status := 206;
                    resp_headers := [("Content-Range", "bytes 0-1" +:+ String "/" (pretty 1000%N))] |})
    = Ok info
    ∧ size info = Some (Z.of_N 1000)
    ∧ supports_range info = false
    ∧ plan info (Some 8) 64 = Ok [(0, Z.of_N 1000 - 1)].
Proof.
  apply (range_fallback_is_single_segment
           {| status := 200; resp_headers := [("Content-Type", "text/plain")] |}
           {| status := 206;
              resp_headers := [("Content-Range", "bytes 0-1" +:+ String "/" (pretty 1000%N))] |}
           "bytes 0-1" 1000%N (Some 8) 64).
  - simpl. lia.
  - reflexivity.
  - reflexivity.
  - reflexivity.
  - reflexivity.
  - lia.
Defined.

(** X21: a probe that finds no size anywhere does not fail.  When the
    HEAD request is answered below 400 and neither its headers nor those
    of the range response give a size, [get_file_info_async] returns a
    dictionary whose size is [None], and planning the download from it
    raises [TypeError], whatever segment count is asked for. *)
Theorem probe_without_size_fails_in_planning r r2 segments config_segments_amount :
  status r < 400 →
  _extract_file_size (resp_headers r) = None →
  _extract_file_size (resp_headers r2) = None →
  ∃ info,
    get_file_info_async (Responded r) (Responded r2) = Ok info
    ∧ size info = None
    ∧ plan info segments config_segments_amount = Raise TypeError.
Proof.
  intros Hstatus Hnone Hnone2.
  eexists. split; [by apply get_file_info_async_responded|].
  rewrite Hnone2. split; [done|]. unfold plan. done.
Qed.

Lemma probe_without_size_fails_in_planning_witness :
  ∃ info,
    get_file_info_async
      (Responded {| status := 200; resp_headers := [("Transfer-Encoding", "chunked")] |})
      (Responded {| status := 200; resp_headers := [("Content-Length", "12 bytes")] |})
    = Ok info
    ∧ size info = None
    ∧ plan info (Some 4) 64 = Raise TypeError.
Proof.
  apply (probe_without_size_fails_in_planning
           {| status := 200; resp_headers := [("Transfer-Encoding", "chunked")] |}
           {| status := 200; resp_headers := [("Content-Length", "12 bytes")] |}
           (Some 4) 64).
  - simpl. lia.
  - reflexivity.
  - reflexivity.
Defined.

End probe_extras.

(** * The configuration file *)

Section config.
Import Json Config.
Local Open Scope string_scope.

Lemma fill_defaults_object items : ∀ members,
  fill_defaults items (JObj members) = Ok (JObj (members ∪ list_to_map items)).
Proof.
  induction items as [|[key value] items IH]; intros members.
  - simpl. by rewrite (right_id_L ∅ (∪)).
  - rewrite list_to_map_cons. simpl. case_bool_decide as Hkey; simpl; rewrite IH.
    + do 2 f_equal. apply map_eq. intros i.
      destruct (decide (i = key)) as [->|Hne].
      * by rewrite !lookup_union_l'.
      * by rewrite !lookup_union, lookup_insert_ne.
    + do 2 f_equal. rewrite <- insert_union_l. apply insert_union_r.
      by apply eq_None_not_Some.
Qed.

Lemma fill_defaults_kept items config config' :
  (∀ members, config ≠ JObj members) →
  fill_defaults items config = Ok config' →
  config' = config ∧ ∀ key, key ∈ items.*1 → py_in key config = Ok true.
Proof.
  intros Hother. induction items as [|[key value] items IH]; simpl.
  - intros [= <-]. split; [done|]. intros key Hkey. by apply elem_of_nil in Hkey.
  - destruct (py_in key config) as [[]|x] eqn:Hin; simpl; [| |done].
    + intros [-> Hkeys]%IH. split; [done|].
      intros k [->|Hk]%elem_of_cons; [done|]. by apply Hkeys.
    + destruct config; simpl; try done. by destruct (Hother members).
Qed.

Lemma default_keys_NoDup downloads : NoDup (DEFAULT_CONFIG downloads).*1.
Proof.
  simpl. assert (bool_decide (NoDup ["user_agent"; "segments_amount"; "download_path";
                                     "retry_times"; "chunk_size"; "timeout";
                                     "progress_bar"]) = true) as H by by vm_compute.
  by apply bool_decide_eq_true_1 in H.
Qed.

Lemma default_is_Some downloads key :
  key ∈ (DEFAULT_CONFIG downloads).*1 →
  is_Some ((list_to_map (DEFAULT_CONFIG downloads) : gmap string json) !! key).
Proof.
  intros Hkey.
  destruct ((list_to_map (DEFAULT_CONFIG downloads) : gmap string json) !! key)
    eqn:Hget; [done|].
  by apply not_elem_of_list_to_map in Hget.
Qed.

Lemma py_in_defaults downloads key :
  key ∈ (DEFAULT_CONFIG downloads).*1 → py_in key (defaults downloads) = Ok true.
Proof.
  intros Hkey. unfold defaults, py_in. f_equal. apply bool_decide_eq_true_2.
  by apply default_is_Some.
Qed.

(** A list that names every key is returned as it is: what
    [load_config] gives is not always a dictionary. *)
Example load_config_array downloads :
  let l := JArr (JStr <$> (DEFAULT_CONFIG downloads).*1) in
  load_config downloads {| mkdir_ok := true; write_ok := true; read_ok := true |}
    (Dir (Some (Ok l)))
  = (Dir (Some (Ok l)), Ok l).
Proof. reflexivity. Qed.

(** X22: a configuration file that holds a JSON object is completed,
    not replaced: every value of the file is kept, also under keys the
    defaults do not know and whatever its type; each default key the
    file lacks gets its default value; no other key appears; and the
    file itself is left as it was. *)
Theorem load_config_fills_missing_keys downloads e members :
  read_ok e = true →
  ∃ config,
    load_config downloads e (Dir (Some (Ok (JObj members))))
    = (Dir (Some (Ok (JObj members))), Ok (JObj config))
    ∧ (∀ key value, members !! key = Some value → config !! key = Some value)
    ∧ (∀ key value,
         members !! key = None → (key, value) ∈ DEFAULT_CONFIG downloads →
         config !! key = Some value)
    ∧ (∀ key,
         members !! key = None → key ∉ (DEFAULT_CONFIG downloads).*1 →
         config !! key = None).
Proof.
  intros Hread. exists (members ∪ list_to_map (DEFAULT_CONFIG downloads)).
  split; [|split_and!].
  - unfold load_config. rewrite Hread.
    change (Ok (JObj members) ≫= fill_defaults (DEFAULT_CONFIG downloads))
      with (fill_defaults (DEFAULT_CONFIG downloads) (JObj members)).
    by rewrite fill_defaults_object.
  - intros key value Hkey. by apply lookup_union_Some_l.
  - intros key value Hkey Hdefault. rewrite lookup_union_r by done.
    apply elem_of_list_to_map_1; [apply default_keys_NoDup|done].
  - intros key Hkey Hdefault. apply lookup_union_None. split; [done|].
    by apply not_elem_of_list_to_map_1.
Qed.

Lemma load_config_fills_missing_keys_witness :
  ∃ config,
    load_config "/home/u/downloads"
      {| mkdir_ok := false; write_ok := false; read_ok := true |}
      (Dir (Some (Ok (JObj {[ "retry_times" := JStr "many" ]}))))
    = (Dir (Some (Ok (JObj {[ "retry_times" := JStr "many" ]}))), Ok (JObj config))
    ∧ (∀ key value,
         ({[ "retry_times" := JStr "many" ]} : gmap string json) !! key = Some value →
         config !! key = Some value)
    ∧ (∀ key value,
         ({[ "retry_times" := JStr "many" ]} : gmap string json) !! key = None →
         (key, value) ∈ DEFAULT_CONFIG "/home/u/downloads" →
         config !! key = Some value)
    ∧ (∀ key,
         ({[ "retry_times" := JStr "many" ]} : gmap string json) !! key = None →
         key ∉ (DEFAULT_CONFIG "/home/u/downloads").*1 →
         config !! key = None).
Proof.
  apply (load_config_fills_missing_keys "/home/u/downloads"
           {| mkdir_ok := false; write_ok := false; read_ok := true |}
           {[ "retry_times" := JStr "many" ]}).
  reflexivity.
Defined.

(** X23: once the configuration file exists, [load_config] cannot fail
    and writes nothing, whatever the file holds and whatever the
    operating system refuses: it returns a configuration in which every
    default key is found by [in], and that configuration is the default
    one when the file cannot be read or is not JSON. *)
Theorem load_config_survives_any_file downloads e content :
  ∃ config,
    load_config downloads e (Dir (Some content)) = (Dir (Some content), Ok config)
    ∧ (∀ key, key ∈ (DEFAULT_CONFIG downloads).*1 → py_in key config = Ok true)
    ∧ (read_ok e = false ∨ (∃ x, content = Raise x) → config = defaults downloads).
Proof.
  eexists. split; [reflexivity|]. split.
  - intros key Hkey. destruct (read_ok e); [|by apply py_in_defaults].
    destruct content as [file_config|x]; [|by apply py_in_defaults].
    change (Ok file_config ≫= fill_defaults (DEFAULT_CONFIG downloads))
      with (fill_defaults (DEFAULT_CONFIG downloads) file_config).
    destruct (fill_defaults (DEFAULT_CONFIG downloads) file_config)
      as [config|x] eqn:Hfill; [|by apply py_in_defaults].
    destruct file_config;
      try (apply fill_defaults_kept in Hfill as [-> Hkeys]; [by apply Hkeys|done]).
    rewrite fill_defaults_object in Hfill. injection Hfill as <-.
    unfold py_in. f_equal. apply bool_decide_eq_true_2.
    apply lookup_union_is_Some. right. by apply default_is_Some.
  - intros [-> | [x ->]]; [done|]. by destruct (read_ok e).
Qed.

End config.

(** * The clipboard monitor *)

Section clipboard.
Import ClipboardMonitor.
Local Open Scope string_scope.
Local Open Scope list_scope.

Lemma prompts_app a b : prompts (a ++ b) = prompts a ++ prompts b.
Proof. apply omap_app. Qed.

Lemma readings_app a b : readings (a ++ b) = readings a ++ readings b.
Proof. apply omap_app. Qed.

Lemma prompts_monitor search urlparse downloader turns : ∀ last,
  prompts (_monitor_clipboard search urlparse downloader last turns)
  = squash last (List.filter (is_valid_url search urlparse) (readings turns)).
Proof.
  induction turns as [|[paste shown] turns IH]; intros last; [done|].
  cbn [_monitor_clipboard]. unfold poll.
  destruct paste as [text|x]; [|apply IH].
  change (readings ((Ok text, shown) :: turns)) with (text :: readings turns).
  cbn [List.filter].
  destruct (is_valid_url search urlparse text) eqn:Hvalid.
  - cbn [squash]. destruct (text =? last)%string eqn:Hlast; cbn [negb andb].
    + apply IH.
    + rewrite prompts_app, IH.
      by destruct (download (show_download_prompt shown) && downloader).
  - rewrite andb_false_r. apply IH.
Qed.

Lemma squash_repeat x : ∀ l last, squash last (l ++ [x; x]) = squash last (l ++ [x]).
Proof.
  induction l as [|y l IH]; intros last; simpl.
  - destruct (x =? last)%string; [done|]. by rewrite String.eqb_refl.
  - destruct (y =? last)%string; by rewrite IH.
Qed.

Lemma filter_junk search urlparse (junk : list (res string * res dialog_result)) :
  Forall (λ turn, ∀ text,
            turn.1 = Ok text → is_valid_url search urlparse text = false) junk →
  List.filter (is_valid_url search urlparse) (readings junk) = [].
Proof.
  induction 1 as [|[paste shown] junk Hturn _ IH]; [done|].
  destruct paste as [text|x]; [|exact IH].
  change (readings ((Ok text, shown) :: junk)) with (text :: readings junk).
  cbn [List.filter]. by rewrite (Hturn text eq_refl).
Qed.

(** X24: the monitor shows its dialog for exactly the valid URLs read
    from the clipboard, in the order they were read, once for each run
    of equal ones.  What was in the clipboard when monitoring started
    counts as already seen; readings that fail or that are not valid
    URLs show nothing and do not end a run. *)
Theorem prompts_squash_repeats search urlparse downloader last turns :
  prompts (_monitor_clipboard search urlparse downloader last turns)
  = squash last (List.filter (is_valid_url search urlparse) (readings turns)).
Proof. apply prompts_monitor. Qed.

(** X25: a URL copied again is not prompted again when only failed
    readings and texts that are not valid URLs came between the two
    copies: [last_clipboard_content] is updated by valid URLs alone. *)
Theorem recopied_url_is_not_prompted_again
    search urlparse downloader last before url shown junk shown' :
  Forall (λ turn, ∀ text,
            turn.1 = Ok text → is_valid_url search urlparse text = false) junk →
  prompts (_monitor_clipboard search urlparse downloader last
             (before ++ (Ok url, shown) :: junk ++ [(Ok url, shown')]))
  = prompts (_monitor_clipboard search urlparse downloader last
               (before ++ [(Ok url, shown)])).
Proof.
  intros Hjunk. rewrite !prompts_monitor.
  change ((Ok url, shown) :: junk ++ [(Ok url, shown')])
    with ([(Ok url, shown)] ++ junk ++ [(Ok url, shown')]).
  rewrite !readings_app, !List.filter_app, (filter_junk _ _ junk Hjunk).
  change (readings [(Ok url, shown)]) with [url].
  change (readings [(Ok url, shown')]) with [url].
  cbn [List.filter]. destruct (is_valid_url search urlparse url); [|done].
  apply squash_repeat.
Qed.

Lemma recopied_url_is_not_prompted_again_witness :
  let search := String.prefix "http" in
  let urlparse := λ _ : string, Ok ("http", "example.org") in
  let cancelled := Raise OSError : res dialog_result in
  prompts (_monitor_clipboard search urlparse true ""
             ([(Ok "hello", cancelled)]
                ++ (Ok "http://example.org/a.zip", cancelled)
                   :: [(Ok "some text", cancelled); (Raise OSError, cancelled)]
                   ++ [(Ok "http://example.org/a.zip", cancelled)]))
  = prompts (_monitor_clipboard search urlparse true ""
               ([(Ok "hello", cancelled)]
                  ++ [(Ok "http://example.org/a.zip", cancelled)])).
Proof.
  intros search urlparse cancelled.
  apply (recopied_url_is_not_prompted_again search urlparse true ""
           [(Ok "hello", cancelled)] "http://example.org/a.zip" cancelled
           [(Ok "some text", cancelled); (Raise OSError, cancelled)] cancelled).
  repeat constructor; simpl; intros text [= <-]; reflexivity.
Defined.

End clipboard.

